(** * Presence registry and snapshot broadcaster of [app.py]

    A shallow embedding of the presence service: the process-wide
    dictionary [_presence] is a finite map from identifiers to records,
    the functions that mutate it under [_lock] take the registry and
    return the new one, Python integers are [Z], and identifiers are
    strings compared lexicographically (Python compares [str] by code
    point, which is the byte order of the UTF-8 encoding held in a Rocq
    [string]). *)

From Stdlib Require Import ZArith String Ascii List Lia Bool.
From stdpp Require Import gmap strings list sorting.
Import ListNotations.

Local Open Scope Z_scope.

(** ** The registry *)

(** [@dataclass class Presence]. *)
Record Presence : Type := mkPresence {
  last_seen : Z;
  last_activity : Z
}.

Abbreviation registry := (gmap string Presence).

Definition _LAST_SEEN_TTL_SECONDS : Z := 60.
Definition _IDLE_THRESHOLD_SECONDS : Z := 60.
Definition _SSE_BROADCAST_INTERVAL_SECONDS : Z := 2.

(** The initial value of [_presence]. *)
Definition empty_registry : registry := ∅.

(** [_update_presence(uid, timestamp, last_activity)]; the optional
    argument is [None] or an integer.  The function returns nothing, so
    the embedding returns the registry after the store. *)
Definition _update_presence (uid : string) (timestamp : Z)
    (last_activity : option Z) (_presence : registry) : registry :=
  let existing := _presence !! uid in
  let resolved_activity :=
    match last_activity with
    | None => timestamp
    | Some a => a
    end in
  <[uid := mkPresence timestamp resolved_activity]> _presence.

(** The order [list.sort] uses on identifiers. *)
Definition uid_le (a b : string) : Prop := String.leb a b = true.
Definition uid_lt (a b : string) : Prop := String.ltb a b = true.

#[global] Instance uid_le_dec (a b : string) : Decision (uid_le a b).
Proof. unfold uid_le. apply _. Defined.

#[global] Instance uid_lt_dec (a b : string) : Decision (uid_lt a b).
Proof. unfold uid_lt. apply _. Defined.

(** [list.sort()] on a list of identifiers. *)
Definition py_sort (l : list string) : list string := merge_sort uid_le l.

(** The three local lists of [_prune_and_snapshot]. *)
Record buckets : Type := mkBuckets {
  stale : list string;
  active : list string;
  idle : list string
}.

(** One iteration of the loop over [list(_presence.items())]. *)
Definition scan_step (last_seen_cutoff idle_cutoff : Z)
    (acc : buckets) (item : string * Presence) : buckets :=
  let '(uid, data) := item in
  if last_seen data <? last_seen_cutoff then
    mkBuckets (stale acc ++ [uid]) (active acc) (idle acc)
  else if last_activity data >=? idle_cutoff then
    mkBuckets (stale acc) (active acc ++ [uid]) (idle acc)
  else
    mkBuckets (stale acc) (active acc) (idle acc ++ [uid]).

Definition scan (last_seen_cutoff idle_cutoff : Z)
    (items : list (string * Presence)) : buckets :=
  foldl (scan_step last_seen_cutoff idle_cutoff) (mkBuckets [] [] []) items.

(** [for uid in stale: _presence.pop(uid, None)]. *)
Definition pop_all (stale_uids : list string) (_presence : registry) : registry :=
  foldl (fun m uid => delete uid m) _presence stale_uids.

(** The body of [_prune_and_snapshot] for an arbitrary iteration order
    of the dictionary. *)
Definition prune_and_snapshot_items (current_ts : Z)
    (items : list (string * Presence)) (_presence : registry)
    : (list string * list string) * registry :=
  let last_seen_cutoff := current_ts - _LAST_SEEN_TTL_SECONDS in
  let idle_cutoff := current_ts - _IDLE_THRESHOLD_SECONDS in
  let b := scan last_seen_cutoff idle_cutoff items in
  let _presence' := pop_all (stale b) _presence in
  ((py_sort (active b), py_sort (idle b)), _presence').

(** [_prune_and_snapshot(current_ts)]: the returned pair of lists and
    the registry after the eviction. *)
Definition _prune_and_snapshot (current_ts : Z) (_presence : registry)
    : (list string * list string) * registry :=
  prune_and_snapshot_items current_ts (map_to_list _presence) _presence.

(** The spec's names for the two operations of the core. *)
Definition record_heartbeat := _update_presence.
Definition snapshot := _prune_and_snapshot.

Definition snap_active (r : (list string * list string) * registry) := fst (fst r).
Definition snap_idle (r : (list string * list string) * registry) := snd (fst r).
Definition snap_registry (r : (list string * list string) * registry) := snd r.

(** The three classes of the loop, as predicates on an item of the
    dictionary. *)
Definition is_stale (last_seen_cutoff : Z) (item : string * Presence) : Prop :=
  last_seen item.2 < last_seen_cutoff.
Definition is_active (last_seen_cutoff idle_cutoff : Z)
    (item : string * Presence) : Prop :=
  ~ last_seen item.2 < last_seen_cutoff /\ last_activity item.2 >= idle_cutoff.
Definition is_idle (last_seen_cutoff idle_cutoff : Z)
    (item : string * Presence) : Prop :=
  ~ last_seen item.2 < last_seen_cutoff /\ ~ last_activity item.2 >= idle_cutoff.

#[global] Instance is_stale_dec c item : Decision (is_stale c item).
Proof. unfold is_stale. apply _. Defined.
#[global] Instance is_active_dec c d item : Decision (is_active c d item).
Proof. unfold is_active. apply _. Defined.
#[global] Instance is_idle_dec c d item : Decision (is_idle c d item).
Proof. unfold is_idle. apply _. Defined.

(** ** Values of request payloads *)

(** A Python [float] by its exact value: not a number, an infinity, or
    the finite dyadic number [m * 2^e]. *)
Inductive pyfloat : Type :=
| FNan
| FInf (negative : bool)
| FFinite (m e : Z).

(** What [request.get_json] can return: the Python images of JSON
    values.  A dictionary is the list of its items, keys distinct. *)
#[warnings="-register-all"]
Inductive pyval : Type :=
| PNone
| PBool (b : bool)
| PInt (z : Z)
| PFloat (f : pyfloat)
| PStr (s : string)
| PList (l : list pyval)
| PDict (d : list (string * pyval)).

(** The exceptions the endpoint can meet. *)
Inductive exn : Type :=
| AttributeError
| OverflowError
| TypeError
| ValueError.

(** Truth value of an object, as [not x] and [x or y] test it. *)
Definition truthy (v : pyval) : bool :=
  match v with
  | PNone => false
  | PBool b => b
  | PInt z => negb (z =? 0)
  | PFloat FNan => true
  | PFloat (FInf _) => true
  | PFloat (FFinite m _) => negb (m =? 0)
  | PStr s => match s with EmptyString => false | String _ _ => true end
  | PList l => match l with [] => false | _ :: _ => true end
  | PDict d => match d with [] => false | _ :: _ => true end
  end.

(** [d.get(key)] on a dictionary: the value, or [None]. *)
Fixpoint dict_get (key : string) (d : list (string * pyval)) : pyval :=
  match d with
  | [] => PNone
  | (k, v) :: d' => if String.eqb k key then v else dict_get key d'
  end.

(** [payload.get(key)]: only a dictionary has the method. *)
Definition py_get (payload : pyval) (key : string) : exn + pyval :=
  match payload with
  | PDict d => inr (dict_get key d)
  | _ => inl AttributeError
  end.

(** [int(x)] on a [float]: truncation toward zero. *)
Definition float_trunc (m e : Z) : Z :=
  if 0 <=? e then m * 2 ^ e else Z.quot m (2 ^ (- e)).

(** [int(x)].  [int_of_str s] stands for [int(s)] on a string: the
    integer read, or nothing where Python raises [ValueError]. *)
Definition py_int (int_of_str : string -> option Z) (v : pyval) : exn + Z :=
  match v with
  | PNone => inl TypeError
  | PBool b => inr (if b then 1 else 0)
  | PInt z => inr z
  | PFloat FNan => inl ValueError
  | PFloat (FInf _) => inl OverflowError
  | PFloat (FFinite m e) => inr (float_trunc m e)
  | PStr s =>
      match int_of_str s with
      | Some z => inr z
      | None => inl ValueError
      end
  | PList _ => inl TypeError
  | PDict _ => inl TypeError
  end.

(** [str(x)]: a string is itself; [repr_of] stands for the text Python
    prints for any other object. *)
Definition py_str (repr_of : pyval -> string) (v : pyval) : string :=
  match v with
  | PStr s => s
  | _ => repr_of v
  end.

(** ** The heartbeat endpoint *)

(** The shared registry together with a log of the calls made to
    [_update_presence], kept to count them. *)
Record world : Type := mkWorld {
  presence : registry;
  update_calls : list (string * Z * option Z)
}.

(** A call of [_update_presence] from a request handler. *)
Definition call_update_presence (uid : string) (timestamp : Z)
    (last_activity : option Z) (w : world) : world :=
  mkWorld (_update_presence uid timestamp last_activity (presence w))
          (update_calls w ++ [(uid, timestamp, last_activity)]).

Inductive http_method : Type := POST | OPTIONS.

(** What a view returns: a dictionary with a status (200 when the view
    gives none), or the empty 204 response of [_options_response]. *)
Inductive response : Type :=
| JsonResponse (body : list (string * pyval)) (status : Z)
| OptionsResponse (allowed_methods : string).

Definition response_status (r : response) : Z :=
  match r with
  | JsonResponse _ status => status
  | OptionsResponse _ => 204
  end.

Definition _options_response (allowed_methods : string) : response :=
  OptionsResponse allowed_methods.

(** [hit()]: [json] is what [request.get_json(force=True, silent=True)]
    returned ([PNone] also when the body does not parse) and [clock] what
    [_now()] returns.  The result is the response, or the exception that
    leaves the view. *)
Definition hit (int_of_str : string -> option Z) (repr_of : pyval -> string)
    (method : http_method) (json : pyval) (clock : Z) (w : world)
    : (exn + response) * world :=
  match method with
  | OPTIONS => (inr (_options_response "POST, OPTIONS"), w)
  | POST =>
      let payload := if truthy json then json else PDict [] in
      match py_get payload "uid" with
      | inl e => (inl e, w)
      | inr uid =>
          if negb (truthy uid) then
            (inr (JsonResponse [("ok", PBool false); ("error", PStr "no uid")] 400), w)
          else
            match py_get payload "last_activity" with
            | inl e => (inl e, w)
            | inr last_activity_raw =>
                let parsed : exn + option Z :=
                  match last_activity_raw with
                  | PNone => inr None
                  | _ =>
                      match py_int int_of_str last_activity_raw with
                      | inr z => inr (Some z)
                      | inl e => inl e
                      end
                  end in
                match parsed with
                | inl TypeError | inl ValueError =>
                    (inr (JsonResponse [("ok", PBool false);
                                        ("error", PStr "invalid last_activity")] 400), w)
                | inl e => (inl e, w)
                | inr last_activity =>
                    let timestamp := clock in
                    let w' := call_update_presence (py_str repr_of uid)
                                timestamp last_activity w in
                    (inr (JsonResponse [("ok", PBool true)] 200), w')
                end
            end
      end
  end.

(** The optional integer an accepted request passes on to
    [_update_presence]; nothing when [int] raises. *)
Definition accepted_activity (int_of_str : string -> option Z) (raw : pyval)
    : option (option Z) :=
  match raw with
  | PNone => Some None
  | _ => match py_int int_of_str raw with
         | inr z => Some (Some z)
         | inl _ => None
         end
  end.

(** ** The snapshot broadcaster *)

(** The dictionary an event carries; [error] is the key only the final
    event of a failed stream has. *)
Record payload : Type := mkPayload {
  ts : Z;
  online_total : Z;
  active_total : Z;
  idle_total : Z;
  active_uids : list string;
  idle_uids : list string;
  error : option string
}.

(** [len(l)]. *)
Definition len (l : list string) : Z := Z.of_nat (length l).

(** Where an iteration of the loop is interrupted, if at all. *)
Inductive fault : Type :=
| NoFault
| FaultBeforeSnapshot  (* an Exception before [_prune_and_snapshot] has run *)
| FaultAfterSnapshot   (* an Exception after it returned, before the [yield] *)
| FaultAfterYield      (* an Exception once the event is out: in [sleep] *)
| GeneratorClosed.     (* [GeneratorExit] at the [yield]; not an [Exception] *)

(** What the environment does during one iteration. *)
Record tick : Type := mkTick {
  tick_clock : Z;                                   (* [_now()] in the [try] block *)
  tick_fault : fault;
  tick_heartbeats : list (string * Z * option Z);   (* recorded by other requests
                                                       before the iteration ends *)
  tick_handler_clock : Z                            (* [_now()] in the [except] block *)
}.

Inductive stream_end : Type :=
| StillStreaming
| EndedAfterError
| EndedClosed.

Definition apply_heartbeats (hbs : list (string * Z * option Z))
    (reg : registry) : registry :=
  foldl (fun r hb => _update_presence hb.1.1 hb.1.2 hb.2 r) reg hbs.

(** The [try] block up to the [yield]: the event and the registry. *)
Definition try_block (now_ts : Z) (reg : registry) : payload * registry :=
  let '((active_uids, idle_uids), reg') := _prune_and_snapshot now_ts reg in
  (mkPayload now_ts (len active_uids + len idle_uids) (len active_uids)
     (len idle_uids) active_uids idle_uids None, reg').

(** The [except] block: the final event and the registry. *)
Definition except_block (now_ts : Z) (reg : registry) : payload * registry :=
  let '((active_uids, idle_uids), reg') := _prune_and_snapshot now_ts reg in
  (mkPayload now_ts (len active_uids + len idle_uids) (len active_uids)
     (len idle_uids) active_uids idle_uids (Some "internal_error"), reg').

(** [event_stream()] run against a script of the environment: the events
    yielded in order, the registry at the end, and how the generator
    stands when the script runs out. *)
Fixpoint event_stream (script : list tick) (reg : registry)
    : list payload * registry * stream_end :=
  match script with
  | [] => ([], reg, StillStreaming)
  | t :: script' =>
      match tick_fault t with
      | NoFault =>
          let '(ev, reg1) := try_block (tick_clock t) reg in
          let reg2 := apply_heartbeats (tick_heartbeats t) reg1 in
          let '(evs, reg3, e) := event_stream script' reg2 in
          (ev :: evs, reg3, e)
      | FaultBeforeSnapshot =>
          let reg2 := apply_heartbeats (tick_heartbeats t) reg in
          let '(ev, reg3) := except_block (tick_handler_clock t) reg2 in
          ([ev], reg3, EndedAfterError)
      | FaultAfterSnapshot =>
          let '(_, reg1) := try_block (tick_clock t) reg in
          let reg2 := apply_heartbeats (tick_heartbeats t) reg1 in
          let '(ev, reg3) := except_block (tick_handler_clock t) reg2 in
          ([ev], reg3, EndedAfterError)
      | FaultAfterYield =>
          let '(ev1, reg1) := try_block (tick_clock t) reg in
          let reg2 := apply_heartbeats (tick_heartbeats t) reg1 in
          let '(ev, reg3) := except_block (tick_handler_clock t) reg2 in
          ([ev1; ev], reg3, EndedAfterError)
      | GeneratorClosed =>
          let '(ev1, reg1) := try_block (tick_clock t) reg in
          let reg2 := apply_heartbeats (tick_heartbeats t) reg1 in
          ([ev1], reg2, EndedClosed)
      end
  end.

(** The faults the [except Exception] clause of the loop catches. *)
Definition is_internal_failure (f : fault) : bool :=
  match f with
  | FaultBeforeSnapshot | FaultAfterSnapshot | FaultAfterYield => true
  | NoFault | GeneratorClosed => false
  end.

(** The events and the registry after a run of the loop. *)
Definition stream_events (r : list payload * registry * stream_end) := r.1.1.
Definition stream_registry (r : list payload * registry * stream_end) := r.1.2.
Definition stream_status (r : list payload * registry * stream_end) := r.2.

(** In the iteration that fails: what was yielded before the fault, and
    the registry the [except] block finds. *)
Definition yielded_before_fault (t : tick) (reg : registry) : list payload :=
  match tick_fault t with
  | FaultAfterYield => [(try_block (tick_clock t) reg).1]
  | _ => []
  end.

Definition registry_at_handler (t : tick) (reg : registry) : registry :=
  apply_heartbeats (tick_heartbeats t)
    match tick_fault t with
    | FaultBeforeSnapshot => reg
    | _ => (try_block (tick_clock t) reg).2
    end.

(** The totals of an event agree with its lists. *)
Definition totals_consistent (e : payload) : Prop :=
  online_total e = active_total e + idle_total e /\
  active_total e = len (active_uids e) /\
  idle_total e = len (idle_uids e).

(** [error_stream()], the generator [sse_online] falls back on when the
    stream cannot be set up: its events and the registry afterwards. *)
Definition error_stream (now_ts : Z) (reg : registry) : list payload * registry :=
  let '((active_uids, idle_uids), reg') := _prune_and_snapshot now_ts reg in
  ([mkPayload now_ts (len active_uids + len idle_uids) (len active_uids)
      (len idle_uids) active_uids idle_uids (Some "internal_error")], reg').

(** The shape a subscriber can rely on in an event. *)
Definition event_well_formed (e : payload) : Prop :=
  StronglySorted uid_lt (active_uids e) /\
  StronglySorted uid_lt (idle_uids e) /\
  (forall uid, uid ∈ active_uids e -> uid ∉ idle_uids e) /\
  totals_consistent e.

(** ** Concurrent callers of the registry *)

(** A call of one of the two functions that take [_lock]. *)
Inductive call : Type :=
| CallUpdate (uid : string) (timestamp : Z) (last_activity : option Z)
| CallSnapshot (current_ts : Z).

(** Where a thread stands in the function it runs, with its locals.
    The [U_] states are those of [_update_presence], the [S_] states
    those of [_prune_and_snapshot]; each names the statement to run
    next. *)
Inductive tstate : Type :=
| U_enter (uid : string) (timestamp : Z) (last_activity : option Z)
    (* [with _lock:] *)
| U_get (uid : string) (timestamp : Z) (last_activity : option Z)
    (* [existing = _presence.get(uid)] *)
| U_resolve (uid : string) (timestamp : Z) (last_activity : option Z)
    (existing : option Presence)
    (* [if last_activity is None: ... else: ...] *)
| U_store (uid : string) (timestamp : Z) (resolved_activity : Z)
    (* [_presence[uid] = Presence(...)] *)
| U_exit
    (* end of the [with] block *)
| U_done
| S_start (current_ts : Z)
    (* the two cutoffs *)
| S_enter (last_seen_cutoff idle_cutoff : Z)
    (* [with _lock:] *)
| S_items (last_seen_cutoff idle_cutoff : Z)
    (* the three empty lists and [list(_presence.items())] *)
| S_scan (last_seen_cutoff idle_cutoff : Z)
    (rest : list (string * Presence)) (b : buckets)
    (* the next item of the first loop *)
| S_pop (rest : list string) (active_uids idle_uids : list string)
    (* the next [_presence.pop(uid, None)], or the end of the [with] block *)
| S_sort_active (active_uids idle_uids : list string)
    (* [active.sort()] *)
| S_sort_idle (active_uids idle_uids : list string)
    (* [idle.sort()] *)
| S_done (active_uids idle_uids : list string).
    (* returned [(active, idle)] *)

(** The state in which a thread starts a call. *)
Definition start (c : call) : tstate :=
  match c with
  | CallUpdate uid timestamp last_activity => U_enter uid timestamp last_activity
  | CallSnapshot current_ts => S_start current_ts
  end.

(** One statement of a thread, on the shared registry and the lock.
    [None]: the thread has returned, or waits for the lock. *)
Definition thread_step (st : tstate) (reg : registry) (locked : bool)
    : option (tstate * registry * bool) :=
  match st with
  | U_enter uid ts la =>
      if locked then None else Some (U_get uid ts la, reg, true)
  | U_get uid ts la =>
      Some (U_resolve uid ts la (reg !! uid), reg, locked)
  | U_resolve uid ts la _ =>
      Some (U_store uid ts (match la with None => ts | Some a => a end), reg, locked)
  | U_store uid ts resolved =>
      Some (U_exit, <[uid := mkPresence ts resolved]> reg, locked)
  | U_exit => Some (U_done, reg, false)
  | U_done => None
  | S_start now =>
      Some (S_enter (now - _LAST_SEEN_TTL_SECONDS) (now - _IDLE_THRESHOLD_SECONDS),
            reg, locked)
  | S_enter c1 c2 =>
      if locked then None else Some (S_items c1 c2, reg, true)
  | S_items c1 c2 =>
      Some (S_scan c1 c2 (map_to_list reg) (mkBuckets [] [] []), reg, locked)
  | S_scan c1 c2 [] b =>
      Some (S_pop (stale b) (active b) (idle b), reg, locked)
  | S_scan c1 c2 (item :: rest) b =>
      Some (S_scan c1 c2 rest (scan_step c1 c2 b item), reg, locked)
  | S_pop [] a i => Some (S_sort_active a i, reg, false)
  | S_pop (uid :: rest) a i => Some (S_pop rest a i, delete uid reg, locked)
  | S_sort_active a i => Some (S_sort_idle (py_sort a) i, reg, locked)
  | S_sort_idle a i => Some (S_done a (py_sort i), reg, locked)
  | S_done _ _ => None
  end.

(** The process: the registry, whether [_lock] is held, the threads. *)
Record config : Type := mkConfig {
  c_presence : registry;
  c_locked : bool;
  c_threads : list tstate
}.

Definition initial (calls : list call) (reg : registry) : config :=
  mkConfig reg false (start <$> calls).

(** Thread [i] runs one statement. *)
Definition step (i : nat) (c : config) : option config :=
  match c_threads c !! i with
  | Some st =>
      match thread_step st (c_presence c) (c_locked c) with
      | Some (st', reg', locked') =>
          Some (mkConfig reg' locked' (<[i := st']> (c_threads c)))
      | None => None
      end
  | None => None
  end.

(** A schedule: which thread runs at each moment. *)
Fixpoint run (sched : list nat) (c : config) : option config :=
  match sched with
  | [] => Some c
  | i :: sched' =>
      match step i c with
      | Some c' => run sched' c'
      | None => None
      end
  end.

Definition is_done (st : tstate) : Prop :=
  match st with
  | U_done | S_done _ _ => True
  | _ => False
  end.

#[global] Instance is_done_dec (st : tstate) : Decision (is_done st).
Proof. destruct st; simpl; apply _. Defined.

(** The same calls one after the other: the registry a call leaves and
    the state in which its thread returns. *)
Definition call_effect (c : call) (reg : registry) : registry :=
  match c with
  | CallUpdate uid ts la => _update_presence uid ts la reg
  | CallSnapshot now => (_prune_and_snapshot now reg).2
  end.

Definition call_result (c : call) (reg : registry) : tstate :=
  match c with
  | CallUpdate _ _ _ => U_done
  | CallSnapshot now =>
      S_done (_prune_and_snapshot now reg).1.1 (_prune_and_snapshot now reg).1.2
  end.

Definition serial_registry (calls : list call) (order : list nat)
    (reg : registry) : registry :=
  foldl (fun r i => match calls !! i with
                    | Some c => call_effect c r
                    | None => r
                    end) reg order.

(** Whether a thread is before, inside or after its [with _lock] block. *)
Inductive phase : Type := Waiting | Holding | Released.

Definition phase_of (st : tstate) : phase :=
  match st with
  | U_enter _ _ _ | S_start _ | S_enter _ _ => Waiting
  | U_get _ _ _ | U_resolve _ _ _ _ | U_store _ _ _ | U_exit
  | S_items _ _ | S_scan _ _ _ _ | S_pop _ _ _ => Holding
  | U_done | S_sort_active _ _ | S_sort_idle _ _ | S_done _ _ => Released
  end.

(** A thread run alone from where it stands to its return. *)
Definition complete (st : tstate) (reg : registry) : tstate * registry :=
  match st with
  | U_enter uid ts la | U_get uid ts la | U_resolve uid ts la _ =>
      (U_done, _update_presence uid ts la reg)
  | U_store uid ts resolved => (U_done, <[uid := mkPresence ts resolved]> reg)
  | U_exit | U_done => (U_done, reg)
  | S_start now =>
      (S_done (_prune_and_snapshot now reg).1.1 (_prune_and_snapshot now reg).1.2,
       (_prune_and_snapshot now reg).2)
  | S_enter c1 c2 | S_items c1 c2 =>
      let b := scan c1 c2 (map_to_list reg) in
      (S_done (py_sort (active b)) (py_sort (idle b)), pop_all (stale b) reg)
  | S_scan c1 c2 rest b =>
      let b' := foldl (scan_step c1 c2) b rest in
      (S_done (py_sort (active b')) (py_sort (idle b')), pop_all (stale b') reg)
  | S_pop rest a i => (S_done (py_sort a) (py_sort i), pop_all rest reg)
  | S_sort_active a i => (S_done (py_sort a) (py_sort i), reg)
  | S_sort_idle a i => (S_done a (py_sort i), reg)
  | S_done a i => (S_done a i, reg)
  end.

(** What is kept true of a thread while the process runs; [order] lists
    the threads that have taken the lock so far, in the order in which
    they took it. *)
Definition thread_ok (calls : list call) (reg0 : registry) (order : list nat)
    (locked : bool) (reg : registry) (i : nat) (st : tstate) (c : call) : Prop :=
  match phase_of st with
  | Waiting =>
      (i ∉ order) /\
      forall r, complete st r = (call_result c r, call_effect c r)
  | Holding =>
      locked = true /\
      exists order', order = order' ++ [i] /\
        complete st reg = (call_result c (serial_registry calls order' reg0),
                           call_effect c (serial_registry calls order' reg0))
  | Released =>
      exists k, order !! k = Some i /\
        (locked = true -> (S k < length order)%nat) /\
        forall r, (complete st r).1
                  = call_result c (serial_registry calls (take k order) reg0)
  end.

Record lock_inv (calls : list call) (reg0 : registry) (order : list nat)
    (cfg : config) : Prop := mkLockInv {
  inv_length : length (c_threads cfg) = length calls;
  inv_nodup : NoDup order;
  inv_bound : forall i, i ∈ order -> (i < length calls)%nat;
  inv_threads : forall i st c,
    c_threads cfg !! i = Some st -> calls !! i = Some c ->
    thread_ok calls reg0 order (c_locked cfg) (c_presence cfg) i st c;
  inv_holder : c_locked cfg = true ->
    exists order' h st, order = order' ++ [h] /\
      c_threads cfg !! h = Some st /\ phase_of st = Holding;
  inv_free : c_locked cfg = false ->
    c_presence cfg = serial_registry calls order reg0
}.

(** How many statements a thread still has to run when it runs alone
    on registry [reg]. *)
Definition scan_steps (c1 c2 : Z) (rest : list (string * Presence))
    (b : buckets) : nat :=
  length rest + 1 + (length (stale (foldl (scan_step c1 c2) b rest)) + 3).

Definition steps_left (st : tstate) (reg : registry) : nat :=
  match st with
  | U_enter _ _ _ => 5
  | U_get _ _ _ => 4
  | U_resolve _ _ _ _ => 3
  | U_store _ _ _ => 2
  | U_exit => 1
  | U_done => 0
  | S_start now =>
      3 + scan_steps (now - _LAST_SEEN_TTL_SECONDS) (now - _IDLE_THRESHOLD_SECONDS)
            (map_to_list reg) (mkBuckets [] [] [])
  | S_enter c1 c2 => 2 + scan_steps c1 c2 (map_to_list reg) (mkBuckets [] [] [])
  | S_items c1 c2 => 1 + scan_steps c1 c2 (map_to_list reg) (mkBuckets [] [] [])
  | S_scan c1 c2 rest b => scan_steps c1 c2 rest b
  | S_pop rest _ _ => length rest + 3
  | S_sort_active _ _ => 2
  | S_sort_idle _ _ => 1
  | S_done _ _ => 0
  end.

(** ** Response headers *)



Abbreviation headers := (gmap string string).








(** * Properties *)

(** ** The order on identifiers *)

Section UidOrder.

Lemma ascii_compare_N (a b : ascii) :
    Ascii.compare a b = N.compare (N_of_ascii a) (N_of_ascii b).
  Proof. reflexivity. Qed.

Lemma string_compare_refl (s : string) : String.compare s s = Eq.
  Proof.
    induction s as [|c s IH]; simpl; [reflexivity|].
    rewrite ascii_compare_N, N.compare_refl. exact IH.
  Qed.

Lemma string_compare_not_gt_trans (a b c : string) :
    String.compare a b <> Gt -> String.compare b c <> Gt ->
    String.compare a c <> Gt.
  Proof.
    revert b c. induction a as [|x a IH]; intros [|y b] [|z c]; simpl;
      try congruence.
    rewrite !ascii_compare_N.
    destruct (N.compare_spec (N_of_ascii x) (N_of_ascii y)) as [Hxy|Hxy|Hxy];
      destruct (N.compare_spec (N_of_ascii y) (N_of_ascii z)) as [Hyz|Hyz|Hyz];
      destruct (N.compare_spec (N_of_ascii x) (N_of_ascii z)) as [Hxz|Hxz|Hxz];
      try congruence; try (exfalso; lia).
    apply IH.
  Qed.

#[global] Instance uid_le_refl : Reflexive uid_le.
  Proof. intros s. unfold uid_le, String.leb. by rewrite string_compare_refl. Qed.

#[global] Instance uid_le_trans : Transitive uid_le.
  Proof.
    intros a b c. unfold uid_le, String.leb. intros Hab Hbc.
    pose proof (string_compare_not_gt_trans a b c) as H.
    destruct (String.compare a b), (String.compare b c), (String.compare a c);
      try done; exfalso; apply H; congruence.
  Qed.

#[global] Instance uid_le_total : Total uid_le.
  Proof. intros a b. apply String.leb_total. Qed.

#[global] Instance uid_le_antisym : AntiSymm (=) uid_le.
  Proof. intros a b. apply String.leb_antisym. Qed.

Lemma uid_lt_le_ne (a b : string) : uid_lt a b <-> uid_le a b /\ a <> b.
  Proof.
    unfold uid_lt, uid_le, String.ltb, String.leb. split.
    - intros H. split.
      + by destruct (String.compare a b).
      + intros ->. by rewrite string_compare_refl in H.
    - intros [H Hne]. destruct (String.compare a b) eqn:E; try done.
      by apply String.compare_eq_iff in E.
  Qed.

Lemma uid_lt_irrefl (a : string) : ~ uid_lt a a.
  Proof. rewrite uid_lt_le_ne. tauto. Qed.

  (** A sorted list without repetition is strictly increasing. *)
Lemma StronglySorted_le_lt (l : list string) :
    StronglySorted uid_le l -> NoDup l -> StronglySorted uid_lt l.
  Proof.
    induction 1 as [|x l Hl IH Hx]; intros Hnd; [constructor|].
    apply NoDup_cons in Hnd as [Hx' Hnd]. constructor; [by apply IH|].
    rewrite Forall_forall in Hx |- *. intros y Hy.
    apply uid_lt_le_ne. split; [by apply Hx|]. intros ->. by apply Hx'.
  Qed.

Lemma py_sort_perm (l : list string) : py_sort l ≡ₚ l.
  Proof. apply merge_sort_Permutation. Qed.

Lemma py_sort_elem_of (l : list string) (x : string) : x ∈ py_sort l <-> x ∈ l.
  Proof. by rewrite py_sort_perm. Qed.

Lemma py_sort_NoDup (l : list string) : NoDup (py_sort l) <-> NoDup l.
  Proof. by rewrite py_sort_perm. Qed.

Lemma py_sort_sorted (l : list string) : StronglySorted uid_le (py_sort l).
  Proof. apply StronglySorted_merge_sort; apply _. Qed.

  (** The result of sorting depends on the elements only, not on the
      order in which the loop met them. *)
Lemma py_sort_order_irrelevant (l1 l2 : list string) :
    l1 ≡ₚ l2 -> py_sort l1 = py_sort l2.
  Proof.
    intros Hp. apply (StronglySorted_unique uid_le).
    - apply py_sort_sorted.
    - apply py_sort_sorted.
    - by rewrite !py_sort_perm.
  Qed.

End UidOrder.

(** ** The scan and the eviction *)

Section Scan.
Variables last_seen_cutoff idle_cutoff : Z.

  (** The loop appends each identifier to the list of its class. *)
Lemma scan_fold (items : list (string * Presence)) (acc : buckets) :
    let b := foldl (scan_step last_seen_cutoff idle_cutoff) acc items in
    stale b = stale acc ++ (filter (is_stale last_seen_cutoff) items).*1 /\
    active b = active acc ++ (filter (is_active last_seen_cutoff idle_cutoff) items).*1 /\
    idle b = idle acc ++ (filter (is_idle last_seen_cutoff idle_cutoff) items).*1.
  Proof.
    revert acc. induction items as [|[uid data] items IH]; intros acc; simpl.
    - by rewrite !app_nil_r.
    - specialize (IH (scan_step last_seen_cutoff idle_cutoff acc (uid, data))).
      simpl in IH. destruct IH as (Hs & Ha & Hi). rewrite Hs, Ha, Hi.
      rewrite !filter_cons. unfold is_stale, is_active, is_idle; simpl.
      destruct (Z.ltb_spec (last_seen data) last_seen_cutoff) as [Hlt|Hge]; simpl.
      + rewrite decide_True by done.
        rewrite !decide_False by (intros [? ?]; lia).
        simpl. by rewrite <- !app_assoc.
      + rewrite (decide_False (P := last_seen data < last_seen_cutoff)) by lia.
        destruct (Z.geb_spec (last_activity data) idle_cutoff) as [Hact|Hidle]; simpl.
        * rewrite decide_True by (split; lia).
          rewrite decide_False by (intros [? ?]; lia).
          simpl. by rewrite <- !app_assoc.
        * rewrite decide_False by (intros [? ?]; lia).
          rewrite decide_True by (split; lia).
          simpl. by rewrite <- !app_assoc.
  Qed.

Lemma scan_spec (items : list (string * Presence)) :
    let b := scan last_seen_cutoff idle_cutoff items in
    stale b = (filter (is_stale last_seen_cutoff) items).*1 /\
    active b = (filter (is_active last_seen_cutoff idle_cutoff) items).*1 /\
    idle b = (filter (is_idle last_seen_cutoff idle_cutoff) items).*1.
  Proof. apply (scan_fold items (mkBuckets [] [] [])). Qed.

Lemma NoDup_fst_filter (P : string * Presence -> Prop)
      `{!forall x, Decision (P x)} (items : list (string * Presence)) :
    NoDup items.*1 -> NoDup (filter P items).*1.
  Proof.
    intros Hnd. eapply sublist_NoDup; [exact Hnd|].
    apply fmap_sublist, sublist_filter.
  Qed.

Lemma elem_of_fst_filter (P : string * Presence -> Prop)
      `{!forall x, Decision (P x)} (items : list (string * Presence)) uid :
    uid ∈ (filter P items).*1 <-> exists p, (uid, p) ∈ items /\ P (uid, p).
  Proof.
    rewrite list_elem_of_fmap. split.
    - intros [[u p] [-> Hin]]. apply list_elem_of_filter in Hin as [HP Hin].
      by exists p.
    - intros [p [Hin HP]]. exists (uid, p). split; [done|].
      by apply list_elem_of_filter.
  Qed.

End Scan.

(** [pop] of every identifier of a list. *)
Lemma pop_all_lookup (l : list string) (reg : registry) (uid : string) :
  pop_all l reg !! uid = if decide (uid ∈ l) then None else reg !! uid.
Proof.
  unfold pop_all. revert reg. induction l as [|x l IH]; intros reg.
  - destruct (decide (uid ∈ [])) as [Hin|_]; [|done].
    by apply elem_of_nil in Hin.
  - cbn [foldl]. rewrite IH.
    destruct (decide (uid ∈ l)) as [Hin|Hnin];
      destruct (decide (uid ∈ x :: l)) as [Hin'|Hnin']; try done.
    + exfalso. apply Hnin'. by right.
    + apply elem_of_cons in Hin' as [->|?]; [|done].
      apply lookup_delete_eq.
    + apply lookup_delete_ne. intros ->. apply Hnin'. by left.
Qed.

(** ** What a snapshot returns and what it leaves in the registry *)

Section Snapshot.
Variable now : Z.
Variable reg : registry.

Let cut_seen := now - _LAST_SEEN_TTL_SECONDS.
Let cut_idle := now - _IDLE_THRESHOLD_SECONDS.

Lemma snapshot_unfold :
    snapshot now reg =
      ((py_sort (filter (is_active cut_seen cut_idle) (map_to_list reg)).*1,
        py_sort (filter (is_idle cut_seen cut_idle) (map_to_list reg)).*1),
       pop_all (filter (is_stale cut_seen) (map_to_list reg)).*1 reg).
  Proof.
    unfold snapshot, _prune_and_snapshot, prune_and_snapshot_items.
    destruct (scan_spec cut_seen cut_idle (map_to_list reg)) as (Hs & Ha & Hi).
    fold cut_seen cut_idle. by rewrite Hs, Ha, Hi.
  Qed.

Lemma snapshot_active_elem (uid : string) :
    uid ∈ snap_active (snapshot now reg) <->
    exists p, reg !! uid = Some p /\
              ~ last_seen p < now - 60 /\ last_activity p >= now - 60.
  Proof.
    rewrite snapshot_unfold. unfold snap_active; simpl.
    rewrite py_sort_elem_of, elem_of_fst_filter.
    by setoid_rewrite elem_of_map_to_list.
  Qed.

Lemma snapshot_idle_elem (uid : string) :
    uid ∈ snap_idle (snapshot now reg) <->
    exists p, reg !! uid = Some p /\
              ~ last_seen p < now - 60 /\ ~ last_activity p >= now - 60.
  Proof.
    rewrite snapshot_unfold. unfold snap_idle; simpl.
    rewrite py_sort_elem_of, elem_of_fst_filter.
    by setoid_rewrite elem_of_map_to_list.
  Qed.

Lemma snapshot_stale_elem (uid : string) :
    uid ∈ (filter (is_stale cut_seen) (map_to_list reg)).*1 <->
    exists p, reg !! uid = Some p /\ last_seen p < now - 60.
  Proof.
    rewrite elem_of_fst_filter. by setoid_rewrite elem_of_map_to_list.
  Qed.

Lemma snapshot_registry_lookup (uid : string) :
    snap_registry (snapshot now reg) !! uid =
      match reg !! uid with
      | Some p => if last_seen p <? now - 60 then None else Some p
      | None => None
      end.
  Proof.
    rewrite snapshot_unfold. unfold snap_registry; simpl.
    rewrite pop_all_lookup.
    destruct (decide _) as [Hin|Hnin].
    - apply snapshot_stale_elem in Hin as (p & -> & Hlt).
      by rewrite (proj2 (Z.ltb_lt _ _) Hlt).
    - destruct (reg !! uid) as [p|] eqn:Hp; [|done].
      destruct (Z.ltb_spec (last_seen p) (now - 60)) as [Hlt|Hge]; [|done].
      exfalso. apply Hnin, snapshot_stale_elem. eauto.
  Qed.

Lemma snapshot_active_NoDup : NoDup (snap_active (snapshot now reg)).
  Proof.
    rewrite snapshot_unfold. unfold snap_active; simpl.
    apply py_sort_NoDup, NoDup_fst_filter, NoDup_fst_map_to_list.
  Qed.

Lemma snapshot_idle_NoDup : NoDup (snap_idle (snapshot now reg)).
  Proof.
    rewrite snapshot_unfold. unfold snap_idle; simpl.
    apply py_sort_NoDup, NoDup_fst_filter, NoDup_fst_map_to_list.
  Qed.

Lemma snapshot_disjoint (uid : string) :
    uid ∈ snap_active (snapshot now reg) -> uid ∈ snap_idle (snapshot now reg) -> False.
  Proof.
    rewrite snapshot_active_elem, snapshot_idle_elem.
    intros (p & Hp & _ & Ha) (q & Hq & _ & Hi). simplify_eq. by apply Hi.
  Qed.

Lemma snapshot_lists_NoDup :
    NoDup (snap_active (snapshot now reg) ++ snap_idle (snapshot now reg)).
  Proof.
    apply NoDup_app. split; [apply snapshot_active_NoDup|].
    split; [|apply snapshot_idle_NoDup].
    intros uid Ha Hi. by apply (snapshot_disjoint uid).
  Qed.

  (** The dictionary's iteration order does not show in the result. *)
Lemma snapshot_order_irrelevant (items : list (string * Presence)) :
    items ≡ₚ map_to_list reg ->
    prune_and_snapshot_items now items reg = _prune_and_snapshot now reg.
  Proof.
    intros Hp. unfold _prune_and_snapshot, prune_and_snapshot_items.
    destruct (scan_spec cut_seen cut_idle (map_to_list reg)) as (Hs & Ha & Hi).
    destruct (scan_spec cut_seen cut_idle items) as (Hs' & Ha' & Hi').
    fold cut_seen cut_idle. rewrite Hs, Ha, Hi, Hs', Ha', Hi'.
    f_equal; [f_equal|].
    - apply py_sort_order_irrelevant. by rewrite Hp.
    - apply py_sort_order_irrelevant. by rewrite Hp.
    - apply map_eq. intros uid. rewrite !pop_all_lookup.
      destruct (decide _) as [H1|H1]; destruct (decide _) as [H2|H2]; try done.
      + exfalso. apply H2. by rewrite <- Hp.
      + exfalso. apply H1. by rewrite Hp.
  Qed.

End Snapshot.

Lemma snapshot_sorted (now : Z) (reg : registry) :
  StronglySorted uid_le (snap_active (snapshot now reg)) /\
  StronglySorted uid_le (snap_idle (snapshot now reg)).
Proof. rewrite snapshot_unfold. split; apply py_sort_sorted. Qed.

Lemma sorted_NoDup_ext (l1 l2 : list string) :
  StronglySorted uid_le l1 -> StronglySorted uid_le l2 ->
  NoDup l1 -> NoDup l2 -> (forall x, x ∈ l1 <-> x ∈ l2) -> l1 = l2.
Proof.
  intros Hs1 Hs2 Hn1 Hn2 Hext.
  apply (StronglySorted_unique uid_le); [done..|].
  by apply NoDup_Permutation.
Qed.

Lemma record_heartbeat_lookup (uid : string) (now : Z) (a : option Z)
    (reg : registry) (k : string) :
  record_heartbeat uid now a reg !! k =
    if decide (uid = k) then Some (mkPresence now (default now a)) else reg !! k.
Proof.
  unfold record_heartbeat, _update_presence. rewrite lookup_insert.
  by destruct a.
Qed.

(** ** The registry: claims *)

(** C1: for every call [snapshot now] on any registry, an entry with
    [last_seen < now - 60] is removed from the registry and is in neither
    returned list; an entry that survives stays in the registry and is in
    exactly one list, [active] when [last_activity >= now - 60] and [idle]
    otherwise; no identifier occurs twice in the two lists together. *)
Theorem C1_snapshot_classification (now : Z) (reg : registry)
    (uid : string) (p : Presence) :
  reg !! uid = Some p ->
  let r := snapshot now reg in
  (last_seen p < now - 60 ->
     snap_registry r !! uid = None /\ (uid ∉ snap_active r) /\ (uid ∉ snap_idle r)) /\
  (now - 60 <= last_seen p ->
     snap_registry r !! uid = Some p /\
     (last_activity p >= now - 60 -> uid ∈ snap_active r /\ uid ∉ snap_idle r) /\
     (last_activity p < now - 60 -> uid ∈ snap_idle r /\ uid ∉ snap_active r)) /\
  NoDup (snap_active r ++ snap_idle r).
Proof.
  intros Hp r. subst r. split; [|split]; [| |apply snapshot_lists_NoDup].
  - intros Hstale. rewrite snapshot_registry_lookup, Hp.
    rewrite (proj2 (Z.ltb_lt _ _) Hstale).
    rewrite snapshot_active_elem, snapshot_idle_elem.
    split; [done|]. split; intros (q & Hq & Hns & _); simplify_eq; lia.
  - intros Hlive. rewrite snapshot_registry_lookup, Hp.
    rewrite (proj2 (Z.ltb_ge _ _) Hlive).
    rewrite snapshot_active_elem, snapshot_idle_elem.
    split; [done|]. split; intros Hact.
    + split; [exists p; repeat split; [done|lia|done]|].
      intros (q & Hq & _ & Hi). simplify_eq. by apply Hi.
    + split; [exists p; repeat split; [done|lia|lia]|].
      intros (q & Hq & _ & Ha). simplify_eq. lia.
Qed.

(** Nothing but identifiers of the registry is ever listed. *)
Lemma snapshot_lists_from_registry (now : Z) (reg : registry) (uid : string) :
  uid ∈ snap_active (snapshot now reg) ++ snap_idle (snapshot now reg) ->
  is_Some (snap_registry (snapshot now reg) !! uid).
Proof.
  rewrite elem_of_app, snapshot_active_elem, snapshot_idle_elem,
    snapshot_registry_lookup.
  intros [(p & -> & Hns & _)|(p & -> & Hns & _)];
    rewrite (proj2 (Z.ltb_ge _ _)) by lia; eauto.
Qed.

(** C4: for every registry and every [now], each of the two lists of
    [snapshot now] is strictly increasing in the lexicographic order of
    identifiers and has no duplicate. *)
Theorem C4_snapshot_lists_strictly_sorted (now : Z) (reg : registry) :
  let r := snapshot now reg in
  (StronglySorted uid_lt (snap_active r) /\ NoDup (snap_active r)) /\
  (StronglySorted uid_lt (snap_idle r) /\ NoDup (snap_idle r)).
Proof.
  intros r. subst r. destruct (snapshot_sorted now reg) as [Ha Hi].
  pose proof (snapshot_active_NoDup now reg) as Hna.
  pose proof (snapshot_idle_NoDup now reg) as Hni.
  repeat split; try done; by apply StronglySorted_le_lt.
Qed.

(** C5: for every identifier, every time [t] and every prior registry,
    [snapshot t] right after [record_heartbeat id t None] lists the
    identifier as active (and not as idle). *)
Theorem C5_heartbeat_then_snapshot_active (uid : string) (t : Z) (reg : registry) :
  let r := snapshot t (record_heartbeat uid t None reg) in
  uid ∈ snap_active r /\ uid ∉ snap_idle r.
Proof.
  intros r. subst r. rewrite snapshot_active_elem, snapshot_idle_elem. split.
  - exists (mkPresence t t). rewrite record_heartbeat_lookup, decide_True by done.
    simpl. repeat split; [lia|lia].
  - intros (q & Hq & _ & Hi).
    rewrite record_heartbeat_lookup, decide_True in Hq by done.
    simplify_eq. simpl in Hi. lia.
Qed.

(** C6: [record_heartbeat] is a total function that stores an entry for
    its identifier, leaves the entry of every other identifier as it was,
    and removes nothing: the identifiers of the registry afterwards are
    those before plus the one of the heartbeat. *)
Theorem C6_heartbeat_frame (uid : string) (now : Z) (a : option Z) (reg : registry) :
  let reg' := record_heartbeat uid now a reg in
  is_Some (reg' !! uid) /\
  (forall k, k <> uid -> reg' !! k = reg !! k) /\
  (forall k, is_Some (reg !! k) -> is_Some (reg' !! k)) /\
  dom reg' = {[uid]} ∪ dom reg.
Proof.
  intros reg'. subst reg'. repeat split.
  - rewrite record_heartbeat_lookup, decide_True by done. eauto.
  - intros k Hk. by rewrite record_heartbeat_lookup, decide_False.
  - intros k Hk. rewrite record_heartbeat_lookup. by case_decide.
  - unfold record_heartbeat, _update_presence. apply dom_insert_L.
Qed.

(** A snapshot leaves alone a registry that holds no stale entry. *)
Lemma snapshot_fixpoint (now : Z) (reg : registry) :
  snap_registry (snapshot now (snap_registry (snapshot now reg)))
  = snap_registry (snapshot now reg).
Proof.
  apply map_eq. intros uid. rewrite !snapshot_registry_lookup.
  destruct (reg !! uid) as [p|]; [|done].
  destruct (last_seen p <? now - 60) eqn:E; [done|]. by rewrite E.
Qed.

(** C10: for every registry and every [now], a second [snapshot now]
    right after the first returns the same two lists and removes no
    entry: the registry after the second call is the one after the
    first. *)
Theorem C10_snapshot_idempotent (now : Z) (reg : registry) :
  let r1 := snapshot now reg in
  let r2 := snapshot now (snap_registry r1) in
  snap_active r2 = snap_active r1 /\
  snap_idle r2 = snap_idle r1 /\
  snap_registry r2 = snap_registry r1.
Proof.
  intros r1 r2. subst r1 r2.
  split; [|split]; [| |apply snapshot_fixpoint].
  - apply sorted_NoDup_ext;
      [apply snapshot_sorted|apply snapshot_sorted|
       apply snapshot_active_NoDup|apply snapshot_active_NoDup|].
    intros uid. rewrite !snapshot_active_elem.
    setoid_rewrite snapshot_registry_lookup.
    split.
    + intros (p & Hp & Hns & Ha). exists p.
      destruct (reg !! uid) as [q|]; [|done].
      destruct (last_seen q <? now - 60); [done|]. by simplify_eq.
    + intros (p & Hp & Hns & Ha). exists p. rewrite Hp.
      by rewrite (proj2 (Z.ltb_ge _ _)) by lia.
  - apply sorted_NoDup_ext;
      [apply snapshot_sorted|apply snapshot_sorted|
       apply snapshot_idle_NoDup|apply snapshot_idle_NoDup|].
    intros uid. rewrite !snapshot_idle_elem.
    setoid_rewrite snapshot_registry_lookup.
    split.
    + intros (p & Hp & Hns & Ha). exists p.
      destruct (reg !! uid) as [q|]; [|done].
      destruct (last_seen q <? now - 60); [done|]. by simplify_eq.
    + intros (p & Hp & Hns & Ha). exists p. rewrite Hp.
      by rewrite (proj2 (Z.ltb_ge _ _)) by lia.
Qed.

(** ** The worked examples of the spec *)

Local Open Scope string_scope.

Example run_boundary_159 :
  snapshot 159 (record_heartbeat "u" 100 (Some 100) empty_registry)
  = ((["u"], []), record_heartbeat "u" 100 (Some 100) empty_registry).
Proof. vm_compute. reflexivity. Qed.

Example run_boundary_160 :
  snapshot 160 (record_heartbeat "u" 100 (Some 100) empty_registry)
  = ((["u"], []), record_heartbeat "u" 100 (Some 100) empty_registry).
Proof. vm_compute. reflexivity. Qed.

Example run_boundary_161 :
  snapshot 161 (record_heartbeat "u" 100 (Some 100) empty_registry)
  = (([], []), empty_registry).
Proof. vm_compute. reflexivity. Qed.

(** C2, as the spec words it, fails: after
    [record_heartbeat "u" 100 100] the call [snapshot 160] (alone or
    after [snapshot 159]) still lists ["u"], because [100 < 160 - 60] is
    false. *)
Lemma C2_boundary_counterexample :
  ~ (let reg := record_heartbeat "u" 100 (Some 100) empty_registry in
     let r159 := snapshot 159 reg in
     let r160 := snapshot 160 (snap_registry r159) in
     ("u" ∈ snap_active r159 \/ "u" ∈ snap_idle r159) /\
     ("u" ∉ snap_active r160) /\ ("u" ∉ snap_idle r160))
  /\
  ~ (let reg := record_heartbeat "u" 100 (Some 100) empty_registry in
     ("u" ∉ snap_active (snapshot 160 reg)) /\ ("u" ∉ snap_idle (snapshot 160 reg))).
Proof.
  split.
  - cbv zeta. rewrite run_boundary_159. unfold snap_registry; cbn [snd].
    rewrite run_boundary_160. unfold snap_active; cbn [fst].
    intros (_ & Hno & _). apply Hno. by left.
  - cbv zeta. rewrite run_boundary_160. unfold snap_active; cbn [fst].
    intros (Hno & _). apply Hno. by left.
Qed.

(** C2, amended: after [record_heartbeat "u" 100 100] on the empty
    registry, [snapshot 159] lists ["u"], [snapshot 160] still lists it
    (as active), and [snapshot 161] lists it in neither list and removes
    it from the registry. *)
Theorem C2_boundary_amended :
  let reg := record_heartbeat "u" 100 (Some 100) empty_registry in
  let r159 := snapshot 159 reg in
  let r160 := snapshot 160 (snap_registry r159) in
  let r161 := snapshot 161 (snap_registry r160) in
  ("u" ∈ snap_active r159 \/ "u" ∈ snap_idle r159) /\
  ("u" ∈ snap_active r160) /\
  ("u" ∉ snap_active r161) /\ ("u" ∉ snap_idle r161) /\
  snap_registry r161 !! "u" = None.
Proof.
  cbv zeta. rewrite run_boundary_159. unfold snap_registry; cbn [snd].
  rewrite run_boundary_160. cbn [snd]. rewrite run_boundary_161.
  unfold snap_active, snap_idle; cbn [fst snd].
  repeat split; try (by left; left); try apply not_elem_of_nil.
Qed.

(** The boundary in general: an entry last seen at [t] survives every
    snapshot up to [t + 60] and is evicted by any later one. *)
Lemma eviction_boundary (uid : string) (t a now : Z) (reg : registry) :
  let r := snapshot now (record_heartbeat uid t (Some a) reg) in
  (now <= t + 60 -> is_Some (snap_registry r !! uid)) /\
  (t + 60 < now -> snap_registry r !! uid = None).
Proof.
  cbv zeta. rewrite snapshot_registry_lookup, record_heartbeat_lookup.
  rewrite decide_True by done. simpl. split; intros H.
  - rewrite (proj2 (Z.ltb_ge _ _)) by lia. eauto.
  - by rewrite (proj2 (Z.ltb_lt _ _)) by lia.
Qed.

(** C3: for every identifier, time and optional reported activity,
    [record_heartbeat] stores [last_seen = now] and [last_activity] equal
    to the reported value, or to [now] when none is reported; what was
    stored before for the identifier has no influence on the result; and
    after heartbeats [("u", 100, 100)] and [("u", 200, 50)], on any prior
    registry, [snapshot 200] lists ["u"] as idle and not as active. *)
Theorem C3_heartbeat_overwrites (uid : string) (now : Z) (a : option Z)
    (old : Presence) (reg : registry) :
  record_heartbeat uid now a reg !! uid
    = Some (mkPresence now (match a with Some v => v | None => now end)) /\
  record_heartbeat uid now a (<[uid := old]> reg)
    = record_heartbeat uid now a (delete uid reg) /\
  (let r := snapshot 200 (record_heartbeat "u" 200 (Some 50)
                            (record_heartbeat "u" 100 (Some 100) reg)) in
   "u" ∈ snap_idle r /\ ("u" ∉ snap_active r) /\
   snap_registry r !! "u" = Some (mkPresence 200 50)).
Proof.
  split; [|split].
  - rewrite record_heartbeat_lookup, decide_True by done. by destruct a.
  - unfold record_heartbeat, _update_presence.
    by rewrite insert_insert_eq, insert_delete_eq.
  - cbv zeta.
    rewrite snapshot_idle_elem, snapshot_active_elem, snapshot_registry_lookup.
    rewrite !record_heartbeat_lookup, !decide_True by done. simpl.
    split; [|split; [|done]].
    + exists (mkPresence 200 50). simpl. repeat split; lia.
    + intros (q & Hq & _ & Ha). simplify_eq. simpl in Ha. lia.
Qed.

(** ** The broadcaster *)

Local Close Scope string_scope.

#[local] Arguments try_block : simpl never.
#[local] Arguments except_block : simpl never.
#[local] Arguments apply_heartbeats : simpl never.

Lemma try_block_spec (now_ts : Z) (reg : registry) :
  try_block now_ts reg =
    (mkPayload now_ts
       (len (snap_active (snapshot now_ts reg)) + len (snap_idle (snapshot now_ts reg)))
       (len (snap_active (snapshot now_ts reg)))
       (len (snap_idle (snapshot now_ts reg)))
       (snap_active (snapshot now_ts reg)) (snap_idle (snapshot now_ts reg)) None,
     snap_registry (snapshot now_ts reg)).
Proof.
  unfold try_block, snapshot, snap_active, snap_idle, snap_registry.
  by destruct (_prune_and_snapshot now_ts reg) as [[a i] r].
Qed.

Lemma except_block_spec (now_ts : Z) (reg : registry) :
  except_block now_ts reg =
    (mkPayload now_ts
       (len (snap_active (snapshot now_ts reg)) + len (snap_idle (snapshot now_ts reg)))
       (len (snap_active (snapshot now_ts reg)))
       (len (snap_idle (snapshot now_ts reg)))
       (snap_active (snapshot now_ts reg)) (snap_idle (snapshot now_ts reg))
       (Some "internal_error"%string),
     snap_registry (snapshot now_ts reg)).
Proof.
  unfold except_block, snapshot, snap_active, snap_idle, snap_registry.
  by destruct (_prune_and_snapshot now_ts reg) as [[a i] r].
Qed.

Lemma try_block_consistent (now_ts : Z) (reg : registry) :
  totals_consistent (try_block now_ts reg).1 /\ error (try_block now_ts reg).1 = None.
Proof. rewrite try_block_spec. by repeat split. Qed.

Lemma except_block_consistent (now_ts : Z) (reg : registry) :
  totals_consistent (except_block now_ts reg).1 /\
  error (except_block now_ts reg).1 = Some "internal_error"%string.
Proof. rewrite except_block_spec. by repeat split. Qed.

Local Ltac forall_events :=
  repeat (apply List.Forall_cons; [assumption|]); apply List.Forall_nil.

(** Every event of every run has consistent totals. *)
Lemma event_stream_consistent (script : list tick) (reg : registry) :
  Forall totals_consistent (stream_events (event_stream script reg)).
Proof.
  unfold stream_events. revert reg.
  induction script as [|t script IH]; intros reg; cbn [event_stream];
    [constructor|].
  pose proof (try_block_consistent (tick_clock t) reg) as [Ht _].
  destruct (try_block (tick_clock t) reg) as [ev1 reg1]. cbn [fst] in Ht.
  destruct (tick_fault t).
  - specialize (IH (apply_heartbeats (tick_heartbeats t) reg1)).
    destruct (event_stream script _) as [[evs r3] e]. cbn [fst] in *.
    by constructor.
  - pose proof (except_block_consistent (tick_handler_clock t)
                  (apply_heartbeats (tick_heartbeats t) reg)) as [He _].
    destruct (except_block _ _) as [ev r3]. cbn [fst] in *. forall_events.
  - pose proof (except_block_consistent (tick_handler_clock t)
                  (apply_heartbeats (tick_heartbeats t) reg1)) as [He _].
    destruct (except_block _ _) as [ev r3]. cbn [fst] in *. forall_events.
  - pose proof (except_block_consistent (tick_handler_clock t)
                  (apply_heartbeats (tick_heartbeats t) reg1)) as [He _].
    destruct (except_block _ _) as [ev r3]. cbn [fst] in *. forall_events.
  - cbn [fst]. forall_events.
Qed.

(** Iterations without a fault compose. *)
Lemma event_stream_app (pre rest : list tick) (reg : registry) :
  Forall (fun x => tick_fault x = NoFault) pre ->
  event_stream (pre ++ rest) reg =
    (stream_events (event_stream pre reg)
       ++ stream_events (event_stream rest (stream_registry (event_stream pre reg))),
     stream_registry (event_stream rest (stream_registry (event_stream pre reg))),
     stream_status (event_stream rest (stream_registry (event_stream pre reg)))).
Proof.
  unfold stream_events, stream_registry, stream_status.
  intros Hpre. revert reg. induction Hpre as [|t pre Ht _ IH]; intros reg.
  - cbn [app event_stream fst snd]. by destruct (event_stream rest reg) as [[? ?] ?].
  - cbn [app event_stream]. rewrite Ht.
    destruct (try_block (tick_clock t) reg) as [ev1 reg1].
    rewrite IH.
    destruct (event_stream pre _) as [[evs1 r1] e1]. cbn [fst snd].
    by destruct (event_stream rest r1) as [[evs2 r2] e2].
Qed.

Lemma event_stream_no_fault_events (pre : list tick) (reg : registry) :
  Forall (fun x => tick_fault x = NoFault) pre ->
  Forall (fun e => error e = None) (stream_events (event_stream pre reg)) /\
  stream_status (event_stream pre reg) = StillStreaming.
Proof.
  unfold stream_events, stream_status.
  intros Hpre. revert reg.
  induction Hpre as [|t pre Ht _ IH]; intros reg; cbn [event_stream].
  - by split.
  - rewrite Ht. pose proof (try_block_consistent (tick_clock t) reg) as [_ He].
    destruct (try_block (tick_clock t) reg) as [ev1 reg1].
    specialize (IH (apply_heartbeats (tick_heartbeats t) reg1)).
    destruct (event_stream pre _) as [[evs1 r1] e1]. cbn [fst snd] in *.
    destruct IH as [IH1 IH2]. split; [by constructor|done].
Qed.

(** The iteration that fails. *)
Lemma event_stream_failed_tick (t : tick) (post : list tick) (reg : registry) :
  is_internal_failure (tick_fault t) = true ->
  event_stream (t :: post) reg =
    (yielded_before_fault t reg
       ++ [(except_block (tick_handler_clock t) (registry_at_handler t reg)).1],
     (except_block (tick_handler_clock t) (registry_at_handler t reg)).2,
     EndedAfterError).
Proof.
  unfold yielded_before_fault, registry_at_handler. cbn [event_stream].
  destruct (try_block (tick_clock t) reg) as [ev1 reg1].
  destruct (tick_fault t); try done; cbn [fst snd app]; intros _;
    by destruct (except_block _ _) as [ev r3].
Qed.

(** C8: when an iteration of the streaming loop fails with an exception
    (before the snapshot, after it, or once its event is out), after
    iterations that did not fail, the loop yields exactly one more event
    and ends, whatever the environment would have done next: every event
    before it carries no [error], the final one carries
    [error = "internal_error"], its time is the clock read in the handler,
    its two lists are those of a snapshot taken by the handler on the
    registry as it is then, and the registry is left as that snapshot
    leaves it; in every event of the run [online_total] is
    [active_total + idle_total] and the totals are the lengths of the
    lists. *)
Theorem C8_failure_final_event (pre : list tick) (t : tick) (post : list tick)
    (reg : registry) :
  Forall (fun x => tick_fault x = NoFault) pre ->
  is_internal_failure (tick_fault t) = true ->
  let run := event_stream (pre ++ t :: post) reg in
  let reg0 := stream_registry (event_stream pre reg) in
  let normal := stream_events (event_stream pre reg) ++ yielded_before_fault t reg0 in
  let fresh := snapshot (tick_handler_clock t) (registry_at_handler t reg0) in
  exists final : payload,
    stream_events run = normal ++ [final] /\
    stream_status run = EndedAfterError /\
    Forall (fun e => error e = None) normal /\
    error final = Some "internal_error"%string /\
    ts final = tick_handler_clock t /\
    active_uids final = snap_active fresh /\
    idle_uids final = snap_idle fresh /\
    stream_registry run = snap_registry fresh /\
    Forall totals_consistent (stream_events run).
Proof.
  intros Hpre Hfail run reg0 normal fresh.
  pose proof (event_stream_consistent (pre ++ t :: post) reg) as Hcons.
  fold run in Hcons.
  assert (Hrun : run =
    (normal ++ [(except_block (tick_handler_clock t) (registry_at_handler t reg0)).1],
     (except_block (tick_handler_clock t) (registry_at_handler t reg0)).2,
     EndedAfterError)).
  { subst run normal. rewrite event_stream_app by done. fold reg0.
    rewrite (event_stream_failed_tick t post reg0) by done.
    unfold stream_events, stream_registry, stream_status. cbn [fst snd].
    by rewrite app_assoc. }
  exists (except_block (tick_handler_clock t) (registry_at_handler t reg0)).1.
  rewrite Hrun in Hcons |- *.
  unfold stream_events, stream_registry, stream_status in *. cbn [fst snd] in *.
  rewrite except_block_spec. cbn [fst snd ts error active_uids idle_uids].
  repeat split; try done.
  - subst normal. apply Forall_app. split.
    + by apply event_stream_no_fault_events.
    + unfold yielded_before_fault. destruct (tick_fault t); try constructor.
      * apply try_block_consistent.
      * constructor.
Qed.

(** A run where the loop fails in its second iteration, after the event
    of that iteration is out; a heartbeat for ["w"] arrives in between,
    and the final event lists it. *)
Example failing_run :
  stream_events
    (event_stream
       [ mkTick 100 NoFault [("v"%string, 101, None)] 0;
         mkTick 102 FaultAfterYield [("w"%string, 103, None)] 104;
         mkTick 106 NoFault [] 0 ]
       (record_heartbeat "u" 30 (Some 30) empty_registry))
  = [ mkPayload 100 0 0 0 [] [] None;
      mkPayload 102 1 1 0 ["v"%string] [] None;
      mkPayload 104 2 2 0 ["v"%string; "w"%string] []
        (Some "internal_error"%string) ].
Proof. vm_compute. reflexivity. Qed.

Lemma C8_failure_final_event_witness :
  let pre := [mkTick 100 NoFault [("v"%string, 101, None)] 0] in
  let t := mkTick 102 FaultAfterYield [("w"%string, 103, None)] 104 in
  let post := [mkTick 106 NoFault [] 0] in
  let reg := record_heartbeat "u" 30 (Some 30) empty_registry in
  Forall (fun x => tick_fault x = NoFault) pre /\
  is_internal_failure (tick_fault t) = true /\
  exists final : payload,
    stream_events (event_stream (pre ++ t :: post) reg)
      = (stream_events (event_stream pre reg)
         ++ yielded_before_fault t (stream_registry (event_stream pre reg)))
        ++ [final] /\
    stream_status (event_stream (pre ++ t :: post) reg) = EndedAfterError /\
    error final = Some "internal_error"%string.
Proof.
  intros pre t post reg.
  assert (Hpre : Forall (fun x => tick_fault x = NoFault) pre)
    by (repeat constructor).
  assert (Hfail : is_internal_failure (tick_fault t) = true) by reflexivity.
  split; [exact Hpre|]. split; [exact Hfail|].
  destruct (C8_failure_final_event pre t post reg Hpre Hfail)
    as (final & Hev & Hst & _ & Herr & _).
  exists final. split; [exact Hev|]. split; [exact Hst|exact Herr].
Defined.

(** ** The heartbeat endpoint *)

Section Hit.
Variable int_of_str : string -> option Z.
Variable repr_of : pyval -> string.
Variable clock : Z.
Variable w : world.

  (** A body that does not parse, or parses to a false value, is treated
      as the empty dictionary: no uid. *)
Lemma hit_falsy_payload (json : pyval) :
    truthy json = false ->
    hit int_of_str repr_of POST json clock w
    = (inr (JsonResponse [("ok", PBool false); ("error", PStr "no uid")] 400), w).
  Proof. intros H. unfold hit. by rewrite H. Qed.

  (** The payload the view works on, when the body is a dictionary. *)
Lemma hit_dict_payload (d : list (string * pyval)) (key : string) :
    py_get (if truthy (PDict d) then PDict d else PDict []) key
    = inr (dict_get key d).
  Proof. by destruct d. Qed.

  (** An absent or false uid (empty string, null, 0, ...) is refused. *)
Lemma hit_no_uid (d : list (string * pyval)) :
    truthy (dict_get "uid" d) = false ->
    hit int_of_str repr_of POST (PDict d) clock w
    = (inr (JsonResponse [("ok", PBool false); ("error", PStr "no uid")] 400), w).
  Proof. intros H. unfold hit. by rewrite hit_dict_payload, H. Qed.

  (** A last_activity on which [int] raises TypeError or ValueError is
      refused. *)
Lemma hit_invalid_last_activity (d : list (string * pyval)) (e : exn) :
    truthy (dict_get "uid" d) = true ->
    dict_get "last_activity" d <> PNone ->
    py_int int_of_str (dict_get "last_activity" d) = inl e ->
    e = TypeError \/ e = ValueError ->
    hit int_of_str repr_of POST (PDict d) clock w
    = (inr (JsonResponse [("ok", PBool false);
                          ("error", PStr "invalid last_activity")] 400), w).
  Proof.
    intros Huid Hraw Hint He. unfold hit.
    rewrite !hit_dict_payload, Huid. cbn [negb].
    destruct (dict_get "last_activity" d); try done;
      rewrite Hint; by destruct He as [-> | ->].
  Qed.

  (** An accepted request calls [_update_presence] once and answers
      [{"ok": True}]. *)
Lemma hit_accepted (d : list (string * pyval)) (la : option Z) :
    truthy (dict_get "uid" d) = true ->
    accepted_activity int_of_str (dict_get "last_activity" d) = Some la ->
    hit int_of_str repr_of POST (PDict d) clock w
    = (inr (JsonResponse [("ok", PBool true)] 200),
       call_update_presence (py_str repr_of (dict_get "uid" d)) clock la w).
  Proof.
    intros Huid Hla. unfold hit.
    rewrite !hit_dict_payload, Huid. cbn [negb].
    unfold accepted_activity in Hla.
    destruct (dict_get "last_activity" d); try (by simplify_eq);
      destruct (py_int int_of_str _); by simplify_eq.
  Qed.

  (** Whatever the request, the registry is touched only by an accepted
      one, and then by exactly one call. *)
Lemma hit_calls (method : http_method) (json : pyval) :
    let r := hit int_of_str repr_of method json clock w in
    match r.1 with
    | inr (JsonResponse _ 200) =>
        exists uid la, r.2 = call_update_presence uid clock la w /\
                       update_calls r.2 = update_calls w ++ [(uid, clock, la)]
    | _ => r.2 = w
    end.
  Proof.
    unfold hit. destruct method; [|done].
    destruct (py_get _ "uid") as [e|uid]; [done|].
    destruct (truthy uid); [|done]. cbn [negb].
    destruct (py_get _ "last_activity") as [e|raw]; [done|].
    destruct raw as [|b|z|[|s|m e]|s|l|l]; cbn [py_int fst snd];
      try (by eexists _, _);
      try done.
    - destruct (int_of_str s); [by eexists _, _|done].
  Qed.

  (** An infinite last_activity: [int] raises OverflowError, which the
      [except (TypeError, ValueError)] clause lets through. *)
Lemma hit_overflow (d : list (string * pyval)) (negative : bool) :
    truthy (dict_get "uid" d) = true ->
    dict_get "last_activity" d = PFloat (FInf negative) ->
    hit int_of_str repr_of POST (PDict d) clock w = (inl OverflowError, w).
  Proof.
    intros Huid Hraw. unfold hit.
    by rewrite !hit_dict_payload, Huid, Hraw.
  Qed.

  (** A body that parses to a true value other than a dictionary (a
    non-empty list, a number, ...) has no [get]: AttributeError leaves
    the view. *)
Lemma hit_non_dict_payload (json : pyval) :
  truthy json = true ->
  (forall d, json <> PDict d) ->
  hit int_of_str repr_of POST json clock w = (inl AttributeError, w).
Proof.
  intros Ht Hnd. unfold hit. rewrite Ht.
  destruct json; try done. by destruct (Hnd d).
Qed.

(** The four ways a POST with a dictionary body can end. *)
Lemma hit_dict_outcomes (d : list (string * pyval)) :
  let r := hit int_of_str repr_of POST (PDict d) clock w in
  r = (inr (JsonResponse [("ok", PBool false); ("error", PStr "no uid")] 400), w) \/
  r = (inr (JsonResponse [("ok", PBool false);
                          ("error", PStr "invalid last_activity")] 400), w) \/
  r = (inl OverflowError, w) \/
  exists la, r = (inr (JsonResponse [("ok", PBool true)] 200),
                  call_update_presence (py_str repr_of (dict_get "uid" d)) clock la w).
Proof.
  cbv zeta. unfold hit. rewrite !hit_dict_payload.
  destruct (truthy (dict_get "uid" d)); [|by left]. cbn [negb].
  destruct (dict_get "last_activity" d) as [|b|z|[|s|m e]|s|l|l];
    cbn [py_int]; eauto 6.
  destruct (int_of_str s); eauto 6.
Qed.

(** C7, at the request body [{"uid": "u", "last_activity": 1e999}]
      (the number reads as the float infinity): last_activity is present
      and [int] fails on it, yet the view returns no client error; the
      OverflowError leaves the view, and the registry is untouched. *)
Theorem C7_hit_infinite_last_activity_escapes :
    let json := PDict [("uid", PStr "u"); ("last_activity", PFloat (FInf false))] in
    py_int int_of_str (PFloat (FInf false)) = inl OverflowError /\
    hit int_of_str repr_of POST json clock w = (inl OverflowError, w).
  Proof. split; reflexivity. Qed.

End Hit.

(** ** Threads and the lock *)

(** A statement of a thread does not change where the thread, run alone,
    would end. *)
Lemma thread_step_complete st reg locked st' reg' locked' :
  thread_step st reg locked = Some (st', reg', locked') ->
  complete st' reg' = complete st reg.
Proof.
  destruct st as [uid ts la|uid ts la|uid ts la ex|uid ts ra| | |now|c1 c2|c1 c2
                 |c1 c2 rest b|rest a i|a i|a i|a i];
    cbn [thread_step]; intros H; try destruct locked; try destruct rest;
    simplify_eq; reflexivity.
Qed.

Lemma thread_step_waiting st reg locked st' reg' locked' :
  phase_of st = Waiting ->
  thread_step st reg locked = Some (st', reg', locked') ->
  reg' = reg /\
  (forall r, complete st' r = complete st r) /\
  ((phase_of st' = Waiting /\ locked' = locked) \/
   (locked = false /\ locked' = true /\ phase_of st' = Holding)).
Proof.
  destruct st; try done; cbn [thread_step]; intros _ H;
    try destruct locked; simplify_eq; repeat split; auto.
Qed.

Lemma thread_step_holding st reg locked st' reg' locked' :
  phase_of st = Holding ->
  thread_step st reg locked = Some (st', reg', locked') ->
  (phase_of st' = Holding /\ locked' = locked) \/
  (phase_of st' = Released /\ locked' = false /\ reg' = reg).
Proof.
  destruct st as [uid ts la|uid ts la|uid ts la ex|uid ts ra| | |now|c1 c2|c1 c2
                 |c1 c2 rest b|rest a i|a i|a i|a i];
    try done; cbn [thread_step]; intros _ H; try destruct rest;
    simplify_eq; auto.
Qed.

Lemma thread_step_released st reg locked st' reg' locked' :
  phase_of st = Released ->
  thread_step st reg locked = Some (st', reg', locked') ->
  phase_of st' = Released /\ reg' = reg /\ locked' = locked /\
  (forall r, (complete st' r).1 = (complete st r).1).
Proof.
  destruct st; try done; cbn [thread_step]; intros _ H; simplify_eq; auto.
Qed.

Lemma complete_released st r1 r2 :
  phase_of st = Released ->
  (complete st r1).2 = r1 /\ (complete st r1).1 = (complete st r2).1.
Proof. by destruct st. Qed.

Lemma complete_done st r : is_done st -> complete st r = (st, r).
Proof. by destruct st. Qed.

Lemma done_released st : is_done st -> phase_of st = Released.
Proof. by destruct st. Qed.

Lemma complete_start (c : call) (r : registry) :
  phase_of (start c) = Waiting /\
  complete (start c) r = (call_result c r, call_effect c r).
Proof. by destruct c. Qed.

Lemma serial_registry_snoc (calls : list call) (order : list nat) (i : nat)
    (c : call) (reg : registry) :
  calls !! i = Some c ->
  serial_registry calls (order ++ [i]) reg
  = call_effect c (serial_registry calls order reg).
Proof.
  intros Hc. unfold serial_registry. rewrite foldl_app. cbn [foldl].
  by rewrite Hc.
Qed.

Section LockInvariant.
Variable calls : list call.
Variable reg0 : registry.

Lemma initial_inv : lock_inv calls reg0 [] (initial calls reg0).
  Proof.
    split; cbn [initial c_threads c_locked c_presence].
    - apply length_fmap.
    - constructor.
    - intros i Hi. by apply elem_of_nil in Hi.
    - intros i st c Hst Hc. rewrite list_lookup_fmap, Hc in Hst.
      simplify_eq/=. destruct (complete_start c reg0) as [Hph _].
      unfold thread_ok. rewrite Hph. split; [apply not_elem_of_nil|].
      intros r. apply complete_start.
    - done.
    - done.
  Qed.

  (** Only the last thread of [order] can be inside the block. *)
Lemma holder_unique order locked reg i j st_i st_j c_i c_j :
    NoDup order ->
    thread_ok calls reg0 order locked reg i st_i c_i -> phase_of st_i = Holding ->
    thread_ok calls reg0 order locked reg j st_j c_j -> phase_of st_j = Holding ->
    i = j.
  Proof.
    unfold thread_ok. intros _ Hi Hpi Hj Hpj. rewrite Hpi in Hi. rewrite Hpj in Hj.
    destruct Hi as (_ & o1 & -> & _). destruct Hj as (_ & o2 & Ho & _).
    by apply app_inj_tail in Ho as [_ ?].
  Qed.

  (** A thread other than the one that moves stays in order when the
      moving thread is not inside the block and changes neither the lock
      nor the list of lock takers. *)
Lemma thread_ok_other order locked reg reg' j st c :
    phase_of st <> Holding ->
    thread_ok calls reg0 order locked reg j st c ->
    thread_ok calls reg0 order locked reg' j st c.
  Proof. unfold thread_ok. by destruct (phase_of st). Qed.

Lemma thread_ok_unlock order reg j st c :
    phase_of st <> Holding ->
    thread_ok calls reg0 order true reg j st c ->
    thread_ok calls reg0 order false reg j st c.
  Proof.
    unfold thread_ok. destruct (phase_of st); try done.
    intros _ (k & Hk & _ & Hr). exists k. by repeat split.
  Qed.

Lemma thread_ok_lock order reg i j st c :
    i <> j ->
    thread_ok calls reg0 order false reg j st c ->
    thread_ok calls reg0 (order ++ [i]) true reg j st c.
  Proof.
    unfold thread_ok. destruct (phase_of st).
    - intros Hij [Hj Hr]. split; [|done].
      rewrite elem_of_app, list_elem_of_singleton. intros [?|?]; [done|congruence].
    - by intros _ [? _].
    - intros _ (k & Hk & _ & Hr). exists k.
      pose proof (lookup_lt_Some _ _ _ Hk) as Hlt.
      split; [by apply lookup_app_l_Some|]. split.
      + intros _. rewrite length_app. simpl. lia.
      + intros r. rewrite take_app_le by lia. apply Hr.
  Qed.

  (** Each statement of each thread keeps the invariant. *)
Lemma step_inv order cfg i cfg' :
    lock_inv calls reg0 order cfg -> step i cfg = Some cfg' ->
    exists order', lock_inv calls reg0 order' cfg'.
  Proof.
    intros [Hlen Hnd Hbd Hth Hhold Hfree]. unfold step.
    destruct (c_threads cfg !! i) as [st|] eqn:Hst; [|done].
    destruct (thread_step st (c_presence cfg) (c_locked cfg))
      as [[[st' reg'] locked']|] eqn:Hstep; [|done].
    intros [= <-].
    pose proof (lookup_lt_Some _ _ _ Hst) as Hi.
    destruct (lookup_lt_is_Some_2 calls i) as [c Hc]; [lia|].
    pose proof (Hth i st c Hst Hc) as Hok.
    pose proof (thread_step_complete _ _ _ _ _ _ Hstep) as Hcomp.
    assert (Hupd : forall j st_j,
      <[i := st']> (c_threads cfg) !! j = Some st_j ->
      (j = i /\ st_j = st') \/ (j <> i /\ c_threads cfg !! j = Some st_j)).
    { intros j st_j Hj. destruct (decide (i = j)) as [<-|Hne].
      - rewrite list_lookup_insert_eq in Hj by done. left. by simplify_eq.
      - rewrite list_lookup_insert_ne in Hj by done. right. by split. }
    destruct (phase_of st) eqn:Hph.
    - (* before the block *)
      destruct (thread_step_waiting _ _ _ _ _ _ Hph Hstep)
        as (-> & Hall & [[Hph' ->]|(Hl & -> & Hph')]).
      + exists order. split; cbn [c_threads c_locked c_presence]; try done.
        * by rewrite length_insert.
        * intros j st_j c_j Hj Hcj. apply Hupd in Hj as [[-> ->]|[Hne Hj]].
          -- simplify_eq. unfold thread_ok in Hok |- *.
             rewrite Hph in Hok. rewrite Hph'. destruct Hok as [Hni Hr].
             split; [done|]. intros r. by rewrite Hall.
          -- by apply Hth.
        * intros Hl. destruct (Hhold Hl) as (o & h & st_h & -> & Hh & Hphh).
          exists o, h, st_h. split; [done|]. split; [|done].
          rewrite list_lookup_insert_ne; [done|]. intros <-. simplify_eq.
          congruence.
      + unfold thread_ok in Hok. rewrite Hph in Hok. destruct Hok as [Hni Hr].
        exists (order ++ [i]). split; cbn [c_threads c_locked c_presence].
        * by rewrite length_insert.
        * apply NoDup_app. split; [done|]. split; [|apply NoDup_singleton].
          intros x Hx. rewrite list_elem_of_singleton. by intros ->.
        * intros x. rewrite elem_of_app, list_elem_of_singleton.
          intros [Hx| ->]; [by apply Hbd|lia].
        * intros j st_j c_j Hj Hcj. apply Hupd in Hj as [[-> ->]|[Hne Hj]].
          -- simplify_eq. unfold thread_ok. rewrite Hph'. split; [done|].
             exists order. split; [done|].
             rewrite Hcomp, Hr. by rewrite (Hfree Hl).
          -- apply thread_ok_lock; [done|]. rewrite <- Hl. by apply Hth.
        * intros _. exists order, i, st'. split; [done|]. split; [|done].
          by apply list_lookup_insert_eq.
        * done.
    - (* inside the block *)
      assert (Hothers : forall j st_j c_j, j <> i ->
        c_threads cfg !! j = Some st_j -> calls !! j = Some c_j ->
        phase_of st_j <> Holding).
      { intros j st_j c_j Hne Hj Hcj Hphj. apply Hne. symmetry.
        eapply (holder_unique order _ _ i j); eauto. }
      pose proof Hok as Hok'. unfold thread_ok in Hok'. rewrite Hph in Hok'.
      destruct Hok' as (Hl & o & -> & Hr).
      destruct (thread_step_holding _ _ _ _ _ _ Hph Hstep)
        as [[Hph' ->]|(Hph' & -> & ->)].
      + exists (o ++ [i]). split; cbn [c_threads c_locked c_presence]; try done.
        * by rewrite length_insert.
        * intros j st_j c_j Hj Hcj. apply Hupd in Hj as [[-> ->]|[Hne Hj]].
          -- simplify_eq. unfold thread_ok. rewrite Hph'. split; [done|].
             exists o. split; [done|]. by rewrite Hcomp.
          -- eapply thread_ok_other; [by eapply Hothers|by apply Hth].
        * intros _. exists o, i, st'. split; [done|]. split; [|done].
          by apply list_lookup_insert_eq.
        * intros Hl'. congruence.
      + destruct (complete_released st' (c_presence cfg) (c_presence cfg) Hph')
          as [Hsame _].
        exists (o ++ [i]). split; cbn [c_threads c_locked c_presence]; try done.
        * by rewrite length_insert.
        * intros j st_j c_j Hj Hcj. apply Hupd in Hj as [[-> ->]|[Hne Hj]].
          -- simplify_eq. unfold thread_ok. rewrite Hph'.
             exists (length o). split; [by apply list_lookup_middle|].
             split; [done|]. intros r. rewrite take_app_length.
             destruct (complete_released st' r (c_presence cfg) Hph') as [_ ->].
             by rewrite Hcomp, Hr.
          -- apply thread_ok_unlock; [by eapply Hothers|].
             rewrite <- Hl. by apply Hth.
        * intros _. rewrite (serial_registry_snoc _ _ _ c) by done.
          rewrite <- Hsame, Hcomp, Hr. done.
    - (* after the block *)
      destruct (thread_step_released _ _ _ _ _ _ Hph Hstep)
        as (Hph' & -> & -> & Hall).
      exists order. split; cbn [c_threads c_locked c_presence]; try done.
      + by rewrite length_insert.
      + intros j st_j c_j Hj Hcj. apply Hupd in Hj as [[-> ->]|[Hne Hj]].
        * simplify_eq. unfold thread_ok in Hok |- *.
          rewrite Hph in Hok. rewrite Hph'.
          destruct Hok as (k & Hk & Hlk & Hr). exists k.
          split; [done|]. split; [done|]. intros r. by rewrite Hall.
        * by apply Hth.
      + intros Hl. destruct (Hhold Hl) as (o & h & st_h & -> & Hh & Hphh).
        exists o, h, st_h. split; [done|]. split; [|done].
        rewrite list_lookup_insert_ne; [done|]. intros <-. simplify_eq.
        congruence.
  Qed.

Lemma run_inv sched : forall order cfg cfg',
    lock_inv calls reg0 order cfg -> run sched cfg = Some cfg' ->
    exists order', lock_inv calls reg0 order' cfg'.
  Proof.
    induction sched as [|i sched IH]; intros order cfg cfg' Hinv; cbn [run].
    - intros [= <-]. eauto.
    - destruct (step i cfg) as [cfg1|] eqn:Hstep; [|done].
      destruct (step_inv _ _ _ _ Hinv Hstep) as [order1 Hinv1]. eauto.
  Qed.

(** The lock never blocks every thread: as long as one thread has not
    returned, some thread can run a statement. *)
Lemma no_deadlock order cfg :
  lock_inv calls reg0 order cfg ->
  ~ Forall is_done (c_threads cfg) ->
  exists i cfg', step i cfg = Some cfg'.
Proof.
  intros [Hlen Hnd Hbd Hth Hhold Hfree] Hnot. unfold step.
  destruct (c_locked cfg) eqn:Hl.
  - destruct (Hhold eq_refl) as (o & h & st & _ & Hst & Hph).
    exists h. rewrite Hst.
    destruct st; try done; cbn [thread_step]; try destruct rest; eauto.
  - apply not_Forall_Exists in Hnot; [|apply _].
    apply Exists_exists in Hnot as (st & Hin & Hst).
    apply list_elem_of_lookup in Hin as [i Hi].
    exists i. rewrite Hi.
    destruct st; cbn [thread_step]; try destruct rest; eauto;
      by destruct Hst.
Qed.

End LockInvariant.

(** C9: in every interleaving of the statements of any number of
    threads, each running [_update_presence] or [_prune_and_snapshot],
    that runs all of them to their return, the calls take effect one
    whole call at a time, in the order in which the threads took
    [_lock]: the registry at the end is the one the calls produce when
    made one after the other in that order, each exactly once, and every
    snapshot returns what [_prune_and_snapshot] returns on the registry
    left by the calls before it in that order, so a heartbeat is either
    wholly in or wholly out of what a snapshot reads. *)
Theorem C9_locked_calls_are_atomic (calls : list call) (reg : registry)
    (sched : list nat) (cfg' : config) :
  run sched (initial calls reg) = Some cfg' ->
  Forall is_done (c_threads cfg') ->
  exists order : list nat,
    order ≡ₚ seq 0 (length calls) /\
    c_presence cfg' = serial_registry calls order reg /\
    forall k i c, order !! k = Some i -> calls !! i = Some c ->
      c_threads cfg' !! i
      = Some (call_result c (serial_registry calls (take k order) reg)).
Proof.
  intros Hrun Hdone.
  destruct (run_inv calls reg sched [] _ _ (initial_inv calls reg) Hrun)
    as [order [Hlen Hnd Hbd Hth Hhold Hfree]].
  rewrite Forall_lookup in Hdone.
  assert (Hrel : forall i st c, c_threads cfg' !! i = Some st ->
    calls !! i = Some c ->
    exists k, order !! k = Some i /\
      st = call_result c (serial_registry calls (take k order) reg)).
  { intros i st c Hst Hc. pose proof (Hth i st c Hst Hc) as Hok.
    pose proof (Hdone i st Hst) as Hd. unfold thread_ok in Hok.
    rewrite (done_released st Hd) in Hok. destruct Hok as (k & Hk & _ & Hr).
    exists k. split; [done|]. specialize (Hr reg).
    by rewrite (complete_done st reg Hd) in Hr. }
  assert (Hunlocked : c_locked cfg' = false).
  { destruct (c_locked cfg') eqn:Hl; [|done].
    destruct (Hhold eq_refl) as (o & h & st & _ & Hst & Hph).
    rewrite (done_released st (Hdone h st Hst)) in Hph. done. }
  exists order. split; [|split].
  - apply NoDup_Permutation; [done|apply NoDup_seq|].
    intros i. rewrite elem_of_seq. split.
    + intros Hi. apply Hbd in Hi. lia.
    + intros [_ Hi]. simpl in Hi.
      destruct (lookup_lt_is_Some_2 (c_threads cfg') i) as [st Hst]; [lia|].
      destruct (lookup_lt_is_Some_2 calls i) as [c Hc]; [lia|].
      destruct (Hrel i st c Hst Hc) as (k & Hk & _).
      by eapply list_elem_of_lookup_2.
  - by apply Hfree.
  - intros k i c Hk Hc.
    pose proof (lookup_lt_Some _ _ _ Hc) as Hi.
    destruct (lookup_lt_is_Some_2 (c_threads cfg') i) as [st Hst]; [lia|].
    destruct (Hrel i st c Hst Hc) as (k' & Hk' & ->).
    by rewrite (NoDup_lookup _ _ _ _ Hnd Hk Hk').
Qed.

(** A heartbeat for ["u"], a snapshot and a heartbeat for ["v"] on three
    threads: the snapshot computes its cutoffs, the first heartbeat runs,
    the snapshot takes the lock, scans and evicts, and the second
    heartbeat runs while the snapshot sorts its lists. *)
Example interleaved_run :
  let calls := [CallUpdate "u" 100 None; CallSnapshot 100;
                CallUpdate "v" 100 (Some 10)] in
  let reg := record_heartbeat "old" 10 (Some 10) empty_registry in
  let sched := [1; 0; 0; 0; 0; 0; 1; 1; 1; 1; 1; 1; 1; 2; 1; 2; 1; 2; 2; 2]%nat in
  (c_threads <$> run sched (initial calls reg))
  = Some [U_done; S_done ["u"%string] []; U_done].
Proof. vm_compute. reflexivity. Qed.

(** While the snapshot holds the lock, a heartbeat cannot start. *)
Example heartbeat_waits_for_snapshot :
  let calls := [CallUpdate "u" 100 None; CallSnapshot 100] in
  let reg := record_heartbeat "old" 10 (Some 10) empty_registry in
  (c_locked <$> run [1; 1; 1; 1]%nat (initial calls reg)) = Some true /\
  run [1; 1; 1; 1; 0]%nat (initial calls reg) = None /\
  (c_locked <$> run [1; 1; 1; 1; 1; 1; 1; 0]%nat (initial calls reg)) = Some true.
Proof. repeat split; vm_compute; reflexivity. Qed.

Lemma C9_locked_calls_are_atomic_witness :
  let calls := [CallUpdate "u" 100 None; CallSnapshot 100;
                CallUpdate "v" 100 (Some 10)] in
  let reg := record_heartbeat "old" 10 (Some 10) empty_registry in
  let sched := [1; 0; 0; 0; 0; 0; 1; 1; 1; 1; 1; 1; 1; 2; 1; 2; 1; 2; 2; 2]%nat in
  exists cfg' : config,
    run sched (initial calls reg) = Some cfg' /\
    Forall is_done (c_threads cfg') /\
    exists order : list nat,
      order ≡ₚ seq 0 (length calls) /\
      c_presence cfg' = serial_registry calls order reg /\
      forall k i c, order !! k = Some i -> calls !! i = Some c ->
        c_threads cfg' !! i
        = Some (call_result c (serial_registry calls (take k order) reg)).
Proof.
  intros calls reg sched.
  destruct (run sched (initial calls reg)) as [cfg'|] eqn:Hrun;
    [|vm_compute in Hrun; discriminate].
  assert (Hdone : Forall is_done (c_threads cfg')).
  { vm_compute in Hrun. injection Hrun as <-. cbn [c_threads].
    repeat (apply List.Forall_cons; [exact I|]). apply List.Forall_nil. }
  exists cfg'. split; [reflexivity|]. split; [exact Hdone|].
  exact (C9_locked_calls_are_atomic calls reg sched cfg' Hrun Hdone).
Defined.

Lemma C1_snapshot_classification_witness :
  let reg := record_heartbeat "u" 100 (Some 30) empty_registry in
  let r := snapshot 120 reg in
  reg !! "u"%string = Some (mkPresence 100 30) /\
  (last_seen (mkPresence 100 30) < 120 - 60 ->
     snap_registry r !! "u"%string = None /\
     ("u"%string ∉ snap_active r) /\ ("u"%string ∉ snap_idle r)) /\
  (120 - 60 <= last_seen (mkPresence 100 30) ->
     snap_registry r !! "u"%string = Some (mkPresence 100 30) /\
     (last_activity (mkPresence 100 30) >= 120 - 60 ->
        "u"%string ∈ snap_active r /\ ("u"%string ∉ snap_idle r)) /\
     (last_activity (mkPresence 100 30) < 120 - 60 ->
        "u"%string ∈ snap_idle r /\ ("u"%string ∉ snap_active r))) /\
  NoDup (snap_active r ++ snap_idle r).
Proof.
  intros reg r.
  assert (Hp : reg !! "u"%string = Some (mkPresence 100 30))
    by (vm_compute; reflexivity).
  split; [exact Hp|].
  exact (C1_snapshot_classification 120 reg "u" (mkPresence 100 30) Hp).
Defined.

Lemma C6_heartbeat_frame_witness :
  let reg := record_heartbeat "b" 7 (Some 3) empty_registry in
  let reg' := record_heartbeat "a" 9 None reg in
  "b"%string <> "a"%string /\ is_Some (reg !! "b"%string) /\
  reg' !! "b"%string = reg !! "b"%string /\ is_Some (reg' !! "b"%string).
Proof.
  intros reg reg'.
  assert (Hne : "b"%string <> "a"%string) by discriminate.
  assert (Hb : is_Some (reg !! "b"%string))
    by (exists (mkPresence 7 3); vm_compute; reflexivity).
  destruct (C6_heartbeat_frame "a" 9 None reg) as (_ & Hother & Hkeep & _).
  split; [exact Hne|]. split; [exact Hb|].
  split; [exact (Hother "b"%string Hne)|exact (Hkeep "b"%string Hb)].
Defined.

(** * Further properties of the registry *)

Local Close Scope string_scope.

Lemma snapshot_eq (r1 r2 : (list string * list string) * registry) :
  snap_active r1 = snap_active r2 -> snap_idle r1 = snap_idle r2 ->
  snap_registry r1 = snap_registry r2 -> r1 = r2.
Proof.
  destruct r1 as [[a1 i1] m1], r2 as [[a2 i2] m2].
  unfold snap_active, snap_idle, snap_registry. simpl. by intros -> -> ->.
Qed.

Lemma snapshot_registry_dom (now : Z) (reg : registry) :
  dom (snap_registry (snapshot now reg))
  = list_to_set (snap_active (snapshot now reg) ++ snap_idle (snapshot now reg)).
Proof.
  apply set_eq. intros uid.
  rewrite elem_of_dom, elem_of_list_to_set, elem_of_app.
  rewrite snapshot_active_elem, snapshot_idle_elem, snapshot_registry_lookup.
  split.
  - destruct (reg !! uid) as [p|]; [|by intros [? ?]].
    destruct (Z.ltb_spec (last_seen p) (now - 60)); [by intros [? ?]|].
    intros _. destruct (decide (last_activity p >= now - 60)).
    + left. exists p. repeat split; [lia|done].
    + right. exists p. repeat split; [lia|done].
  - intros [(p & -> & Hns & _)|(p & -> & Hns & _)];
      rewrite (proj2 (Z.ltb_ge _ _)) by lia; eauto.
Qed.

Lemma snapshot_registry_size (now : Z) (reg : registry) :
  size (snap_registry (snapshot now reg))
  = length (snap_active (snapshot now reg) ++ snap_idle (snapshot now reg)).
Proof.
  rewrite <- size_dom, snapshot_registry_dom.
  apply size_list_to_set, snapshot_lists_NoDup.
Qed.

(** X1: after a snapshot the registry holds exactly the identifiers the
    two lists name, and as many entries as the lists have elements. *)
Theorem snapshot_lists_are_registry (now : Z) (reg : registry) :
  let r := snapshot now reg in
  dom (snap_registry r) = list_to_set (snap_active r ++ snap_idle r) /\
  size (snap_registry r) = length (snap_active r ++ snap_idle r).
Proof.
  split; [apply snapshot_registry_dom|apply snapshot_registry_size].
Qed.

(** X2: a snapshot adds no entry and changes none: what the registry
    holds afterwards it held before, with the same two times. *)
Theorem snapshot_only_removes (now : Z) (reg : registry) :
  snap_registry (snapshot now reg) ⊆ reg.
Proof.
  apply map_subseteq_spec. intros uid p. rewrite snapshot_registry_lookup.
  destruct (reg !! uid) as [q|]; [|done]. by destruct (last_seen q <? now - 60).
Qed.

(** X3: a snapshot taken after an earlier one, with no heartbeat in
    between, returns and leaves what it would have without the earlier
    one: subscribers that tick at different times do not disturb each
    other's view. *)
Theorem snapshot_absorbs_earlier (now1 now2 : Z) (reg : registry) :
  now1 <= now2 ->
  snapshot now2 (snap_registry (snapshot now1 reg)) = snapshot now2 reg.
Proof.
  intros Hle.
  assert (Hsame : forall uid p,
    ~ last_seen p < now2 - 60 ->
    snap_registry (snapshot now1 reg) !! uid = Some p <-> reg !! uid = Some p).
  { intros uid p Hns. rewrite snapshot_registry_lookup. split.
    - destruct (reg !! uid) as [q|]; [|done].
      by destruct (last_seen q <? now1 - 60).
    - intros ->. by rewrite (proj2 (Z.ltb_ge _ _)) by lia. }
  apply snapshot_eq.
  - apply sorted_NoDup_ext;
      [apply snapshot_sorted|apply snapshot_sorted|
       apply snapshot_active_NoDup|apply snapshot_active_NoDup|].
    intros uid. rewrite !snapshot_active_elem.
    split; intros (p & Hp & Hns & Ha); exists p;
      (split; [by apply (Hsame uid p Hns)|done]).
  - apply sorted_NoDup_ext;
      [apply snapshot_sorted|apply snapshot_sorted|
       apply snapshot_idle_NoDup|apply snapshot_idle_NoDup|].
    intros uid. rewrite !snapshot_idle_elem.
    split; intros (p & Hp & Hns & Ha); exists p;
      (split; [by apply (Hsame uid p Hns)|done]).
  - apply map_eq. intros uid. rewrite !snapshot_registry_lookup.
    destruct (reg !! uid) as [p|]; [|done].
    destruct (Z.ltb_spec (last_seen p) (now1 - 60)) as [H1|H1];
      destruct (Z.ltb_spec (last_seen p) (now2 - 60)) as [H2|H2];
      try done; lia.
Qed.

Lemma snapshot_absorbs_earlier_witness :
  let reg := record_heartbeat "u" 100 None
               (record_heartbeat "v" 50 None empty_registry) in
  120 <= 130 /\
  snapshot 130 (snap_registry (snapshot 120 reg)) = snapshot 130 reg.
Proof.
  intros reg.
  assert (H : 120 <= 130) by lia.
  split; [exact H|exact (snapshot_absorbs_earlier 120 130 reg H)].
Defined.

(** The order of the two snapshots matters: an earlier snapshot at a
    later time evicts what the second would have listed. *)
Example snapshot_later_first_differs :
  let reg := record_heartbeat "v" 50 None empty_registry in
  fst (snapshot 100 (snap_registry (snapshot 120 reg))) = ([], []) /\
  fst (snapshot 100 reg) = (["v"%string], []).
Proof. split; vm_compute; reflexivity. Qed.

(** X4: without heartbeats presence only decays: whoever a snapshot
    lists at a later time, a snapshot of the same registry at an earlier
    time lists too, and whoever is active later is active earlier. *)
Theorem snapshot_decay (now1 now2 : Z) (reg : registry) (uid : string) :
  now1 <= now2 ->
  (uid ∈ snap_active (snapshot now2 reg) -> uid ∈ snap_active (snapshot now1 reg)) /\
  (uid ∈ snap_active (snapshot now2 reg) ++ snap_idle (snapshot now2 reg) ->
   uid ∈ snap_active (snapshot now1 reg) ++ snap_idle (snapshot now1 reg)).
Proof.
  intros Hle. rewrite !elem_of_app, !snapshot_active_elem, !snapshot_idle_elem.
  split.
  - intros (p & Hp & Hns & Ha). exists p. repeat split; [done|lia|lia].
  - intros [(p & Hp & Hns & _)|(p & Hp & Hns & _)];
      (destruct (decide (last_activity p >= now1 - 60));
       [left|right]; exists p; repeat split; try done; lia).
Qed.

Lemma snapshot_decay_witness :
  let reg := record_heartbeat "u" 100 (Some 80) empty_registry in
  110 <= 150 /\
  ("u"%string ∈ snap_active (snapshot 150 reg) ++ snap_idle (snapshot 150 reg) ->
   "u"%string ∈ snap_active (snapshot 110 reg) ++ snap_idle (snapshot 110 reg)).
Proof.
  intros reg. assert (H : 110 <= 150) by lia.
  split; [exact H|]. exact (proj2 (snapshot_decay 110 150 reg "u" H)).
Defined.

(** X5: heartbeats compose by call order: of two heartbeats for one
    identifier only the later one counts, whatever times they carry, and
    heartbeats for different identifiers can be swapped. *)
Theorem heartbeats_compose (u1 u2 : string) (t1 t2 : Z) (a1 a2 : option Z)
    (reg : registry) :
  record_heartbeat u1 t2 a2 (record_heartbeat u1 t1 a1 reg)
    = record_heartbeat u1 t2 a2 reg /\
  (u1 <> u2 ->
   record_heartbeat u1 t1 a1 (record_heartbeat u2 t2 a2 reg)
     = record_heartbeat u2 t2 a2 (record_heartbeat u1 t1 a1 reg)).
Proof.
  unfold record_heartbeat, _update_presence. cbv zeta. split.
  - apply insert_insert_eq.
  - intros Hne. by apply insert_insert_ne.
Qed.

Lemma heartbeats_compose_witness :
  "u"%string <> "v"%string /\
  record_heartbeat "u" 5 None (record_heartbeat "v" 7 (Some 1) empty_registry)
    = record_heartbeat "v" 7 (Some 1) (record_heartbeat "u" 5 None empty_registry).
Proof.
  assert (H : "u"%string <> "v"%string) by discriminate.
  split; [exact H|].
  exact (proj2 (heartbeats_compose "u" "v" 5 7 None (Some 1) empty_registry) H).
Defined.

(** X6: the time to live, in general: after a heartbeat at [t], whatever
    activity it reports and whatever the registry held, a snapshot at
    [now] lists the identifier exactly when [now <= t + 60]. *)
Theorem heartbeat_listed_until_ttl (uid : string) (t now : Z) (a : option Z)
    (reg : registry) :
  let r := snapshot now (record_heartbeat uid t a reg) in
  uid ∈ snap_active r ++ snap_idle r <-> now <= t + 60.
Proof.
  cbv zeta. rewrite elem_of_app, snapshot_active_elem, snapshot_idle_elem.
  setoid_rewrite record_heartbeat_lookup.
  rewrite decide_True by done. split.
  - intros [(p & Hp & Hns & _)|(p & Hp & Hns & _)]; simplify_eq; simpl in *; lia.
  - intros Hle.
    destruct (decide (default t a >= now - 60));
      [left|right]; eexists; (split; [done|]); simpl; split; try done; lia.
Qed.

(** X7: the two windows are equally long, so an entry whose last
    activity is not older than its last heartbeat is never idle: it is
    active until it is evicted.  A heartbeat that reports no activity
    gives such an entry. *)
Theorem fresh_activity_never_idle (now : Z) (reg : registry) (uid : string)
    (p : Presence) :
  reg !! uid = Some p ->
  last_seen p <= last_activity p ->
  uid ∉ snap_idle (snapshot now reg).
Proof.
  intros Hp Hfresh. rewrite snapshot_idle_elem.
  intros (q & Hq & Hns & Hi). simplify_eq. lia.
Qed.

Lemma fresh_activity_never_idle_witness :
  let reg := record_heartbeat "u" 100 None empty_registry in
  reg !! "u"%string = Some (mkPresence 100 100) /\
  last_seen (mkPresence 100 100) <= last_activity (mkPresence 100 100) /\
  ("u"%string ∉ snap_idle (snapshot 130 reg)).
Proof.
  intros reg.
  assert (Hp : reg !! "u"%string = Some (mkPresence 100 100))
    by (vm_compute; reflexivity).
  assert (Hf : last_seen (mkPresence 100 100) <= last_activity (mkPresence 100 100))
    by (simpl; lia).
  split; [exact Hp|]. split; [exact Hf|].
  exact (fresh_activity_never_idle 130 reg "u" (mkPresence 100 100) Hp Hf).
Defined.

(** * Further properties of the broadcaster *)

(** X8: while nothing fails the loop yields one event per iteration,
    stamped with the clock read in that iteration, in order, none with
    an [error] key, and it goes on. *)
Theorem stream_without_fault (script : list tick) (reg : registry) :
  Forall (fun x => tick_fault x = NoFault) script ->
  let r := event_stream script reg in
  ts <$> stream_events r = tick_clock <$> script /\
  Forall (fun e => error e = None) (stream_events r) /\
  stream_status r = StillStreaming.
Proof.
  intros Hs. cbv zeta. split; [|by apply event_stream_no_fault_events].
  unfold stream_events. revert reg.
  induction Hs as [|t script Ht _ IH]; intros reg; cbn [event_stream]; [done|].
  rewrite Ht. rewrite try_block_spec.
  specialize (IH (apply_heartbeats (tick_heartbeats t)
                    (snap_registry (snapshot (tick_clock t) reg)))).
  destruct (event_stream script _) as [[evs r3] e]. cbn [fst snd] in *.
  rewrite !fmap_cons. by rewrite IH.
Qed.

Lemma stream_without_fault_witness :
  let script := [mkTick 100 NoFault [] 0; mkTick 102 NoFault [] 0] in
  let reg := record_heartbeat "u" 90 None empty_registry in
  Forall (fun x => tick_fault x = NoFault) script /\
  ts <$> stream_events (event_stream script reg) = tick_clock <$> script /\
  Forall (fun e => error e = None) (stream_events (event_stream script reg)) /\
  stream_status (event_stream script reg) = StillStreaming.
Proof.
  intros script reg.
  assert (H : Forall (fun x => tick_fault x = NoFault) script)
    by (repeat constructor).
  split; [exact H|exact (stream_without_fault script reg H)].
Defined.

(** X9: when the consumer closes the generator at a [yield], the loop
    ends there without an error event: [GeneratorExit] is no
    [Exception], so the handler does not run, whatever would have come
    next. *)
Theorem stream_closed_silently (pre : list tick) (t : tick) (post : list tick)
    (reg : registry) :
  Forall (fun x => tick_fault x = NoFault) pre ->
  tick_fault t = GeneratorClosed ->
  let r := event_stream (pre ++ t :: post) reg in
  let reg0 := stream_registry (event_stream pre reg) in
  stream_events r
    = stream_events (event_stream pre reg) ++ [(try_block (tick_clock t) reg0).1] /\
  Forall (fun e => error e = None) (stream_events r) /\
  stream_status r = EndedClosed /\
  stream_registry r
    = apply_heartbeats (tick_heartbeats t) (try_block (tick_clock t) reg0).2.
Proof.
  intros Hpre Ht. cbv zeta. rewrite event_stream_app by done.
  pose proof (event_stream_no_fault_events pre reg Hpre) as [Hnone _].
  set (reg0 := stream_registry (event_stream pre reg)).
  cbn [event_stream]. rewrite Ht.
  pose proof (try_block_consistent (tick_clock t) reg0) as [_ He].
  destruct (try_block (tick_clock t) reg0) as [ev1 reg1].
  unfold stream_events, stream_status, stream_registry in *. cbn [fst snd] in *.
  repeat split; try done.
  apply Forall_app. split; [done|]. by apply Forall_singleton.
Qed.

Lemma stream_closed_silently_witness :
  let pre := [mkTick 100 NoFault [] 0] in
  let t := mkTick 102 GeneratorClosed [] 0 in
  let post := [mkTick 104 NoFault [] 0] in
  let reg := record_heartbeat "u" 90 None empty_registry in
  Forall (fun x => tick_fault x = NoFault) pre /\
  tick_fault t = GeneratorClosed /\
  Forall (fun e => error e = None)
    (stream_events (event_stream (pre ++ t :: post) reg)) /\
  stream_status (event_stream (pre ++ t :: post) reg) = EndedClosed.
Proof.
  intros pre t post reg.
  assert (H : Forall (fun x => tick_fault x = NoFault) pre)
    by (repeat constructor).
  assert (Ht : tick_fault t = GeneratorClosed) by reflexivity.
  destruct (stream_closed_silently pre t post reg H Ht) as (_ & Hn & Hs & _).
  split; [exact H|]. split; [exact Ht|]. split; [exact Hn|exact Hs].
Defined.

(** X10: in every run, whatever the environment does, at most one event
    carries an [error] key; when one does it is the last event, its
    value is ["internal_error"], and the generator has returned. *)
Theorem stream_error_event_is_last (script : list tick) (reg : registry) :
  let r := event_stream script reg in
  exists normal : list payload,
    Forall (fun e => error e = None) normal /\
    ((stream_events r = normal /\ stream_status r <> EndedAfterError) \/
     (exists final : payload,
        stream_events r = normal ++ [final] /\
        error final = Some "internal_error"%string /\
        stream_status r = EndedAfterError)).
Proof.
  cbv zeta. unfold stream_events, stream_status. revert reg.
  induction script as [|t script IH]; intros reg; cbn [event_stream].
  - exists []. split; [constructor|]. by left.
  - pose proof (try_block_consistent (tick_clock t) reg) as [_ He1].
    destruct (try_block (tick_clock t) reg) as [ev1 reg1]. cbn [fst] in He1.
    destruct (tick_fault t).
    + destruct (IH (apply_heartbeats (tick_heartbeats t) reg1))
        as (normal & Hn & Hcase).
      destruct (event_stream script _) as [[evs r3] e]. cbn [fst snd] in *.
      exists (ev1 :: normal). split; [by constructor|].
      destruct Hcase as [[-> Hst]|(final & -> & Hf & ->)]; [by left|].
      right. by exists final.
    + pose proof (except_block_consistent (tick_handler_clock t)
                    (apply_heartbeats (tick_heartbeats t) reg)) as [_ He].
      destruct (except_block _ _) as [ev r3]. cbn [fst snd] in *.
      exists []. split; [constructor|]. right. by exists ev.
    + pose proof (except_block_consistent (tick_handler_clock t)
                    (apply_heartbeats (tick_heartbeats t) reg1)) as [_ He].
      destruct (except_block _ _) as [ev r3]. cbn [fst snd] in *.
      exists []. split; [constructor|]. right. by exists ev.
    + pose proof (except_block_consistent (tick_handler_clock t)
                    (apply_heartbeats (tick_heartbeats t) reg1)) as [_ He].
      destruct (except_block _ _) as [ev r3]. cbn [fst snd] in *.
      exists [ev1]. split; [by apply Forall_singleton|]. right. by exists ev.
    + cbn [fst snd]. exists [ev1]. split; [by apply Forall_singleton|]. by left.
Qed.

(** X11: the [online_total] of an event, normal or final, is the number
    of entries the registry holds right after the snapshot it reports. *)
Theorem online_total_is_registry_size (now_ts : Z) (reg : registry) :
  online_total (try_block now_ts reg).1 = Z.of_nat (size (try_block now_ts reg).2) /\
  online_total (except_block now_ts reg).1
    = Z.of_nat (size (except_block now_ts reg).2).
Proof.
  rewrite try_block_spec, except_block_spec. cbn [fst snd online_total].
  rewrite snapshot_registry_size.
  rewrite length_app. unfold len. lia.
Qed.

(** * Further properties of the heartbeat endpoint *)

(** A request leaves the world as it is or makes one call of
    [_update_presence] at the clock of the request. *)
Lemma hit_world (int_of_str : string -> option Z) (repr_of : pyval -> string)
    (method : http_method) (json : pyval) (clock : Z) (w : world) :
  (hit int_of_str repr_of method json clock w).2 = w \/
  exists uid la,
    (hit int_of_str repr_of method json clock w).2
    = call_update_presence uid clock la w.
Proof.
  unfold hit. destruct method; [|by left].
  destruct (py_get _ "uid") as [e|uid]; [by left|].
  destruct (truthy uid); [|by left]. cbn [negb].
  destruct (py_get _ "last_activity") as [e|raw]; [by left|].
  destruct raw as [|b|z|[|s|m e]|s|l|l]; cbn [py_int snd]; eauto.
  destruct (int_of_str s); cbn [snd]; eauto.
Qed.

(** X12: no request to the endpoint, of either method and with any
    body, removes an entry or changes the entry of more than one
    identifier: every identifier of the registry is still there
    afterwards, and the registry has at most one entry more. *)
Theorem hit_never_evicts (int_of_str : string -> option Z)
    (repr_of : pyval -> string) (method : http_method) (json : pyval)
    (clock : Z) (w : world) :
  let w' := (hit int_of_str repr_of method json clock w).2 in
  dom (presence w) ⊆ dom (presence w') /\
  (size (presence w') <= S (size (presence w)))%nat /\
  exists uid, forall k, k <> uid -> presence w' !! k = presence w !! k.
Proof.
  cbv zeta.
  destruct (hit_world int_of_str repr_of method json clock w)
    as [->|(uid & la & ->)].
  - repeat split; [done|lia|]. by exists EmptyString.
  - unfold call_update_presence, _update_presence. cbn [presence].
    repeat split.
    + rewrite dom_insert_L. set_solver.
    + destruct (presence w !! uid) as [p|] eqn:Hp.
      * rewrite map_size_insert_Some by eauto. lia.
      * by rewrite map_size_insert_None.
    + exists uid. intros k Hk. by rewrite lookup_insert_ne.
Qed.

(** X13: a heartbeat that the endpoint accepts shows in a snapshot taken
    at the same clock: the identifier, as [str] gives it, is listed,
    active when no activity is reported or the reported one is at most
    60 seconds old, idle otherwise; and the endpoint made exactly one
    call. *)
Theorem accepted_heartbeat_is_listed (int_of_str : string -> option Z)
    (repr_of : pyval -> string) (d : list (string * pyval)) (la : option Z)
    (clock : Z) (w : world) :
  truthy (dict_get "uid" d) = true ->
  accepted_activity int_of_str (dict_get "last_activity" d) = Some la ->
  let w' := (hit int_of_str repr_of POST (PDict d) clock w).2 in
  let key := py_str repr_of (dict_get "uid" d) in
  let r := snapshot clock (presence w') in
  (key ∈ snap_active r <-> default clock la >= clock - 60) /\
  (key ∈ snap_idle r <-> default clock la < clock - 60) /\
  update_calls w' = update_calls w ++ [(key, clock, la)].
Proof.
  intros Huid Hla. cbv zeta.
  rewrite (hit_accepted int_of_str repr_of clock w d la Huid Hla). cbn [snd].
  unfold call_update_presence. cbn [presence update_calls].
  fold (record_heartbeat (py_str repr_of (dict_get "uid" d)) clock la (presence w)).
  rewrite snapshot_active_elem, snapshot_idle_elem.
  setoid_rewrite record_heartbeat_lookup. rewrite decide_True by done.
  repeat split.
  - intros (p & Hp & _ & Ha). by simplify_eq.
  - intros Ha. eexists. split; [done|]. simpl. split; [lia|done].
  - intros (p & Hp & _ & Hi). simplify_eq. simpl in Hi. lia.
  - intros Hi. eexists. split; [done|]. simpl. split; lia.
Qed.

Lemma accepted_heartbeat_is_listed_witness :
  let d := [("uid"%string, PStr "u"); ("last_activity"%string, PInt 30)] in
  let w := mkWorld empty_registry [] in
  let w' := (hit (fun _ => None) (fun _ => EmptyString) POST (PDict d) 100 w).2 in
  truthy (dict_get "uid" d) = true /\
  accepted_activity (fun _ => None) (dict_get "last_activity" d) = Some (Some 30) /\
  ("u"%string ∈ snap_idle (snapshot 100 (presence w')) <-> 30 < 100 - 60).
Proof.
  intros d w w'.
  assert (Hu : truthy (dict_get "uid" d) = true) by reflexivity.
  assert (Ha : accepted_activity (fun _ => None) (dict_get "last_activity" d)
               = Some (Some 30)) by reflexivity.
  split; [exact Hu|]. split; [exact Ha|].
  exact (proj1 (proj2 (accepted_heartbeat_is_listed (fun _ => None)
                         (fun _ => EmptyString) d (Some 30) 100 w Hu Ha))).
Defined.

(** * Properties of the response headers *)







(** * Further properties of the lock *)

Lemma reachable_inv (calls : list call) (reg : registry) (sched : list nat)
    (cfg : config) :
  run sched (initial calls reg) = Some cfg ->
  exists order, lock_inv calls reg order cfg.
Proof. intros Hrun. exact (run_inv calls reg sched [] _ _ (initial_inv calls reg) Hrun). Qed.

(** X17: mutual exclusion: however the threads are scheduled, at most
    one of them is inside a [with _lock] block, and while one is the
    lock is held. *)
Theorem lock_mutual_exclusion (calls : list call) (reg : registry)
    (sched : list nat) (cfg : config) (i j : nat) (st_i st_j : tstate) :
  run sched (initial calls reg) = Some cfg ->
  c_threads cfg !! i = Some st_i -> phase_of st_i = Holding ->
  c_threads cfg !! j = Some st_j -> phase_of st_j = Holding ->
  i = j /\ c_locked cfg = true.
Proof.
  intros Hrun Hi Hpi Hj Hpj.
  destruct (reachable_inv calls reg sched cfg Hrun)
    as [order [Hlen Hnd Hbd Hth Hhold Hfree]].
  destruct (lookup_lt_is_Some_2 calls i) as [ci Hci];
    [rewrite <- Hlen; by eapply lookup_lt_Some|].
  destruct (lookup_lt_is_Some_2 calls j) as [cj Hcj];
    [rewrite <- Hlen; by eapply lookup_lt_Some|].
  pose proof (Hth i st_i ci Hi Hci) as Hoki.
  pose proof (Hth j st_j cj Hj Hcj) as Hokj.
  split; [by eapply (holder_unique calls reg order)|].
  unfold thread_ok in Hoki. rewrite Hpi in Hoki. by destruct Hoki.
Qed.

Lemma lock_mutual_exclusion_witness :
  let calls := [CallUpdate "u" 100 None; CallSnapshot 100] in
  let reg := record_heartbeat "old" 10 (Some 10) empty_registry in
  exists cfg st,
    run [1; 1; 1; 0]%nat (initial calls reg) = None /\
    run [1; 1; 1]%nat (initial calls reg) = Some cfg /\
    c_threads cfg !! 1%nat = Some st /\ phase_of st = Holding /\
    c_locked cfg = true.
Proof.
  intros calls reg.
  destruct (run [1; 1; 1]%nat (initial calls reg)) as [cfg|] eqn:Hrun;
    [|vm_compute in Hrun; discriminate].
  assert (Hst : exists st, c_threads cfg !! 1%nat = Some st /\ phase_of st = Holding).
  { vm_compute in Hrun. injection Hrun as <-. eexists. split; reflexivity. }
  destruct Hst as (st & Hst & Hph).
  exists cfg, st. split; [vm_compute; reflexivity|]. split; [reflexivity|].
  split; [exact Hst|]. split; [exact Hph|].
  exact (proj2 (lock_mutual_exclusion calls reg [1; 1; 1]%nat cfg 1 1 st st
                  Hrun Hst Hph Hst Hph)).
Defined.

(** X18: the lock never blocks every thread: in whatever state the
    process is, as long as some thread has not returned some thread can
    run its next statement. *)
Theorem lock_never_deadlocks (calls : list call) (reg : registry)
    (sched : list nat) (cfg : config) :
  run sched (initial calls reg) = Some cfg ->
  ~ Forall is_done (c_threads cfg) ->
  exists i cfg', step i cfg = Some cfg'.
Proof.
  intros Hrun Hnot.
  destruct (reachable_inv calls reg sched cfg Hrun) as [order Hinv].
  by eapply no_deadlock.
Qed.

Lemma lock_never_deadlocks_witness :
  let calls := [CallUpdate "u" 100 None; CallSnapshot 100] in
  let reg := record_heartbeat "old" 10 (Some 10) empty_registry in
  exists cfg,
    run [1; 1; 1]%nat (initial calls reg) = Some cfg /\
    ~ Forall is_done (c_threads cfg) /\
    exists i cfg', step i cfg = Some cfg'.
Proof.
  intros calls reg.
  destruct (run [1; 1; 1]%nat (initial calls reg)) as [cfg|] eqn:Hrun;
    [|vm_compute in Hrun; discriminate].
  assert (Hnot : ~ Forall is_done (c_threads cfg)).
  { vm_compute in Hrun. injection Hrun as <-. cbn [c_threads].
    intros H. apply Forall_cons_1 in H as [H _]. exact H. }
  exists cfg. split; [reflexivity|]. split; [exact Hnot|].
  exact (lock_never_deadlocks calls reg [1; 1; 1]%nat cfg Hrun Hnot).
Defined.

(** ** Running the calls to their end *)

Lemma steps_left_step st reg locked st' reg' locked' :
  thread_step st reg locked = Some (st', reg', locked') ->
  steps_left st reg = S (steps_left st' reg').
Proof.
  destruct st as [uid ts la|uid ts la|uid ts la ex|uid ts ra| | |now|c1 c2|c1 c2
                 |c1 c2 rest b|rest a i|a i|a i|a i];
    cbn [thread_step]; intros H; try destruct locked; try destruct rest;
    simplify_eq; cbn [steps_left]; unfold scan_steps; cbn [foldl length]; lia.
Qed.

Lemma steps_left_done st reg : steps_left st reg = 0%nat -> is_done st.
Proof.
  destruct st; cbn [steps_left]; unfold scan_steps; try lia; done.
Qed.

Lemma thread_step_enabled st reg locked :
  (phase_of st = Waiting -> locked = false) ->
  ~ is_done st ->
  is_Some (thread_step st reg locked).
Proof.
  intros Hl Hnd.
  destruct st as [uid ts la|uid ts la|uid ts la ex|uid ts ra| | |now|c1 c2|c1 c2
                 |c1 c2 rest b|rest a i|a i|a i|a i];
    cbn [thread_step]; try destruct rest; eauto;
    try (rewrite Hl by done; eauto); by destruct Hnd.
Qed.

Lemma run_app (s1 s2 : list nat) (cfg : config) :
  run (s1 ++ s2) cfg = match run s1 cfg with
                       | Some cfg1 => run s2 cfg1
                       | None => None
                       end.
Proof.
  revert cfg. induction s1 as [|i s1 IH]; intros cfg; cbn [run app]; [done|].
  destruct (step i cfg); [apply IH|done].
Qed.

(** A thread scheduled alone, with the lock free if it still needs it,
    runs to its return in [steps_left] statements and ends where
    [complete] says. *)
Lemma run_alone (n : nat) : forall cfg i st,
  c_threads cfg !! i = Some st ->
  steps_left st (c_presence cfg) = n ->
  (phase_of st = Waiting -> c_locked cfg = false) ->
  exists cfg',
    run (replicate n i) cfg = Some cfg' /\
    c_threads cfg' = <[i := (complete st (c_presence cfg)).1]> (c_threads cfg) /\
    c_presence cfg' = (complete st (c_presence cfg)).2 /\
    (phase_of st <> Released -> c_locked cfg' = false) /\
    (phase_of st = Released -> c_locked cfg' = c_locked cfg).
Proof.
  induction n as [|n IH]; intros cfg i st Hst Hn Hl.
  - apply steps_left_done in Hn.
    exists cfg. rewrite (complete_done st _ Hn). cbn [fst snd run replicate].
    split; [done|]. split; [by rewrite list_insert_id|]. split; [done|].
    split; [|done]. intros Hph. by rewrite (done_released st Hn) in Hph.
  - assert (Hnd : ~ is_done st).
    { intros Hd. destruct st; try done; cbn [steps_left] in Hn; lia. }
    destruct (thread_step_enabled st (c_presence cfg) (c_locked cfg) Hl Hnd)
      as [[[st' reg'] l'] Hstep].
    pose proof (steps_left_step _ _ _ _ _ _ Hstep) as Hdec.
    pose proof (thread_step_complete _ _ _ _ _ _ Hstep) as Hcomp.
    set (cfg1 := mkConfig reg' l' (<[i := st']> (c_threads cfg))).
    assert (Hs1 : step i cfg = Some cfg1).
    { unfold step. by rewrite Hst, Hstep. }
    assert (Hst1 : c_threads cfg1 !! i = Some st').
    { apply list_lookup_insert_eq. by eapply lookup_lt_Some. }
    assert (Hl1 : phase_of st' = Waiting -> c_locked cfg1 = false).
    { intros Hw. cbn [cfg1 c_locked].
      destruct (phase_of st) eqn:Hph.
      - destruct (thread_step_waiting _ _ _ _ _ _ Hph Hstep)
          as (_ & _ & [[_ ->]|(_ & _ & Hh)]); [by apply Hl|congruence].
      - destruct (thread_step_holding _ _ _ _ _ _ Hph Hstep)
          as [[Hh _]|(Hh & _)]; congruence.
      - destruct (thread_step_released _ _ _ _ _ _ Hph Hstep) as (Hr & _).
        congruence. }
    destruct (IH cfg1 i st' Hst1) as (cfg' & Hrun & Hth & Hreg & Hnr & Hrel);
      [cbn [cfg1 c_presence]; lia|exact Hl1|].
    cbn [cfg1 c_presence c_threads c_locked] in *.
    exists cfg'. cbn [replicate run]. rewrite Hs1.
    split; [done|]. rewrite <- Hcomp.
    split; [by rewrite Hth, list_insert_insert_eq|]. split; [done|].
    split.
    + intros Hph. destruct (phase_of st') eqn:Hph'.
      * by apply Hnr.
      * by apply Hnr.
      * rewrite (Hrel eq_refl). destruct (phase_of st) eqn:Hp; [| |done].
        -- destruct (thread_step_waiting _ _ _ _ _ _ Hp Hstep)
             as (_ & _ & [[Hw _]|(_ & _ & Hh)]); congruence.
        -- destruct (thread_step_holding _ _ _ _ _ _ Hp Hstep)
             as [[Hh _]|(_ & -> & _)]; [congruence|done].
    + intros Hph.
      destruct (thread_step_released _ _ _ _ _ _ Hph Hstep) as (Hr & _ & -> & _).
      by apply Hrel.
Qed.

Lemma call_result_done (c : call) (reg : registry) : is_done (call_result c reg).
Proof. by destruct c. Qed.

Lemma serial_prefix (calls : list call) (reg : registry) (k : nat) :
  (k <= length calls)%nat ->
  exists sched cfg,
    run sched (initial calls reg) = Some cfg /\
    c_locked cfg = false /\
    c_presence cfg = serial_registry calls (seq 0 k) reg /\
    length (c_threads cfg) = length calls /\
    (forall j c, (j < k)%nat -> calls !! j = Some c ->
       c_threads cfg !! j
       = Some (call_result c (serial_registry calls (seq 0 j) reg))) /\
    (forall j, (k <= j)%nat -> c_threads cfg !! j = start <$> calls !! j).
Proof.
  induction k as [|k IH]; intros Hk.
  - exists [], (initial calls reg). cbn [run initial c_locked c_presence c_threads].
    repeat split; try done.
    + apply length_fmap.
    + intros j c Hj. lia.
    + intros j _. apply list_lookup_fmap.
  - destruct IH as (sched & cfg & Hrun & Hl & Hreg & Hlen & Hdone & Hrest); [lia|].
    destruct (lookup_lt_is_Some_2 calls k) as [c Hc]; [lia|].
    assert (Hst : c_threads cfg !! k = Some (start c)).
    { rewrite Hrest by lia. by rewrite Hc. }
    destruct (run_alone (steps_left (start c) (c_presence cfg)) cfg k (start c)
                Hst eq_refl (fun _ => Hl))
      as (cfg' & Hrun' & Hth & Hreg' & Hnr & _).
    destruct (complete_start c (c_presence cfg)) as [Hph Hcomp].
    rewrite Hcomp in Hth, Hreg'. cbn [fst snd] in Hth, Hreg'.
    exists (sched ++ replicate (steps_left (start c) (c_presence cfg)) k), cfg'.
    split; [by rewrite run_app, Hrun|].
    split; [apply Hnr; congruence|].
    split; [by rewrite Hreg', Hreg, seq_S, (serial_registry_snoc _ _ _ c)|].
    split; [by rewrite Hth, length_insert|].
    split.
    + intros j cj Hj Hcj. rewrite Hth.
      destruct (decide (j = k)) as [->|Hne].
      * simplify_eq. rewrite list_lookup_insert_eq by lia. by rewrite Hreg.
      * rewrite list_lookup_insert_ne by done. apply Hdone; [lia|done].
    + intros j Hj. rewrite Hth, list_lookup_insert_ne by lia. apply Hrest. lia.
Qed.

(** X19: the calls can always run to their end: for any calls and any
    registry there is a schedule, one call after the other, in which
    every thread takes the lock, returns and leaves the lock free, and
    the registry at the end is the one the calls produce in that
    order. *)
Theorem calls_can_complete (calls : list call) (reg : registry) :
  exists sched cfg,
    run sched (initial calls reg) = Some cfg /\
    Forall is_done (c_threads cfg) /\
    c_locked cfg = false /\
    c_presence cfg = serial_registry calls (seq 0 (length calls)) reg.
Proof.
  destruct (serial_prefix calls reg (length calls))
    as (sched & cfg & Hrun & Hl & Hreg & Hlen & Hdone & _); [lia|].
  exists sched, cfg. repeat split; try done.
  apply Forall_lookup. intros j st Hst.
  pose proof (lookup_lt_Some _ _ _ Hst) as Hj.
  destruct (lookup_lt_is_Some_2 calls j) as [c Hc]; [lia|].
  rewrite (Hdone j c) in Hst by (done || lia). simplify_eq.
  apply call_result_done.
Qed.

(** * Events and responses in general *)

Lemma event_stream_Forall (P : payload -> Prop) :
  (forall now_ts reg, P (try_block now_ts reg).1) ->
  (forall now_ts reg, P (except_block now_ts reg).1) ->
  forall script reg, Forall P (stream_events (event_stream script reg)).
Proof.
  intros Ht He script. unfold stream_events.
  induction script as [|t script IH]; intros reg; cbn [event_stream];
    [constructor|].
  pose proof (Ht (tick_clock t) reg) as H1.
  destruct (try_block (tick_clock t) reg) as [ev1 reg1]. cbn [fst] in H1.
  destruct (tick_fault t).
  - specialize (IH (apply_heartbeats (tick_heartbeats t) reg1)).
    destruct (event_stream script _) as [[evs r3] e]. cbn [fst] in *.
    by constructor.
  - pose proof (He (tick_handler_clock t)
                  (apply_heartbeats (tick_heartbeats t) reg)) as H2.
    destruct (except_block _ _) as [ev r3]. cbn [fst] in *. forall_events.
  - pose proof (He (tick_handler_clock t)
                  (apply_heartbeats (tick_heartbeats t) reg1)) as H2.
    destruct (except_block _ _) as [ev r3]. cbn [fst] in *. forall_events.
  - pose proof (He (tick_handler_clock t)
                  (apply_heartbeats (tick_heartbeats t) reg1)) as H2.
    destruct (except_block _ _) as [ev r3]. cbn [fst] in *. forall_events.
  - cbn [fst]. forall_events.
Qed.

Lemma snapshot_event_well_formed (now_ts : Z) (reg : registry) (err : option string) :
  event_well_formed
    (mkPayload now_ts
       (len (snap_active (snapshot now_ts reg)) + len (snap_idle (snapshot now_ts reg)))
       (len (snap_active (snapshot now_ts reg)))
       (len (snap_idle (snapshot now_ts reg)))
       (snap_active (snapshot now_ts reg)) (snap_idle (snapshot now_ts reg)) err).
Proof.
  unfold event_well_formed. cbn [active_uids idle_uids].
  destruct (snapshot_sorted now_ts reg) as [Ha Hi].
  split; [apply StronglySorted_le_lt; [done|apply snapshot_active_NoDup]|].
  split; [apply StronglySorted_le_lt; [done|apply snapshot_idle_NoDup]|].
  split; [|by repeat split].
  intros uid H1 H2. by apply (snapshot_disjoint now_ts reg uid).
Qed.

(** X20: every event a subscriber receives, in any run of the loop and
    from the fallback generator alike, has two strictly increasing
    lists with no identifier in both, and totals that are the lengths of
    the lists; the fallback generator yields exactly one event, flagged
    ["internal_error"]. *)
Theorem events_well_formed (script : list tick) (now_ts : Z) (reg : registry) :
  Forall event_well_formed (stream_events (event_stream script reg)) /\
  exists e, (error_stream now_ts reg).1 = [e] /\
            event_well_formed e /\ error e = Some "internal_error"%string /\
            ts e = now_ts.
Proof.
  split.
  - apply event_stream_Forall; intros n r.
    + rewrite try_block_spec. apply snapshot_event_well_formed.
    + rewrite except_block_spec. apply snapshot_event_well_formed.
  - pose proof (snapshot_event_well_formed now_ts reg
                  (Some "internal_error"%string)) as Hwf.
    unfold error_stream, snapshot, snap_active, snap_idle in *.
    destruct (_prune_and_snapshot now_ts reg) as [[a i] r]. cbn [fst snd] in *.
    eexists. split; [reflexivity|]. split; [exact Hwf|by split].
Qed.

Section HitTable.
Variable int_of_str : string -> option Z.
Variable repr_of : pyval -> string.
Variable clock : Z.
Variable w : world.

(** X21: the answers of the endpoint to a POST whose body is a
    dictionary: [400 "no uid"] exactly when the uid is missing or false;
    [400 "invalid last_activity"] exactly when the uid is there and
    [int] raises TypeError or ValueError on a last_activity other than
    null; [200] exactly when the uid is there and last_activity is
    missing, null, or something [int] converts. *)
Theorem hit_response_table (d : list (string * pyval)) :
  let r := (hit int_of_str repr_of POST (PDict d) clock w).1 in
  let uid := dict_get "uid" d in
  let raw := dict_get "last_activity" d in
  (r = inr (JsonResponse [("ok", PBool false); ("error", PStr "no uid")] 400)
     <-> truthy uid = false) /\
  (r = inr (JsonResponse [("ok", PBool false);
                          ("error", PStr "invalid last_activity")] 400)
     <-> truthy uid = true /\ raw <> PNone /\
         (py_int int_of_str raw = inl TypeError \/
          py_int int_of_str raw = inl ValueError)) /\
  (r = inr (JsonResponse [("ok", PBool true)] 200)
     <-> truthy uid = true /\ is_Some (accepted_activity int_of_str raw)).
Proof.
  cbv zeta. unfold hit, accepted_activity. rewrite !hit_dict_payload.
  destruct (truthy (dict_get "uid" d)); cbn [negb fst].
  - destruct (dict_get "last_activity" d) as [|b|z|[|s|m e]|s|l|l];
      cbn [py_int fst]; try destruct (int_of_str s);
      (split; [|split]); split; intros H;
      try discriminate H;
      try (by destruct H as (_ & [? H]));
      try (destruct H as (_ & Hraw & Hor); first [done | by destruct Hor]);
      repeat split; eauto; done.
  - (split; [|split]); split; intros H; try done; try discriminate H;
      by destruct H.
Qed.

End HitTable.
